(** * Knowledge-graph query engine: filtering, ego expansion, triplets, node-link view

    Shallow embedding of [backend/kg_endpoints.py] (and of its per-file twin
    [backend/kg_file_endpoints.py], whose four helper functions are textually
    the same), together with the properties stated for them.

    The helpers work on [networkx.Graph] objects.  The part of networkx they
    rely on is modelled below from its data structure: an insertion-ordered
    dictionary of nodes, each with an attribute dictionary and an
    insertion-ordered adjacency dictionary. *)

From Stdlib Require Import ZArith Ascii String DecimalString DecimalNat.
From Stdlib Require OrderedTypeEx.
From stdpp Require Import base list strings gmap sorting.

(** ** Python values and dictionaries *)

(** The attribute values that can be stored on nodes and edges
    ([Dict[str, Any]] in the source). *)
Inductive pyval :=
  | VNone
  | VBool (b : bool)
  | VInt (z : Z)
  | VStr (s : string).

#[global] Instance pyval_eq_dec : EqDecision pyval.
Proof. solve_decision. Defined.

(** Attribute dictionaries.  Key order plays no role in what follows. *)
Abbreviation attrs := (gmap string pyval).

(** Truth value of an object, as used by [if q:] and by [x or y]. *)
Definition truthy (v : pyval) : bool :=
  match v with
  | VNone => false
  | VBool b => b
  | VInt z => negb (z =? 0)%Z
  | VStr s => negb (String.eqb s EmptyString)
  end.

(** [x or y] *)
Definition py_or (x y : pyval) : pyval := if truthy x then x else y.

(** [d.get(k)]: the value, or [None] *)
Definition py_get (d : attrs) (k : string) : pyval := default VNone (d !! k).

(** [d.get(k, dflt)] *)
Definition py_get_default (d : attrs) (k : string) (dflt : pyval) : pyval :=
  default dflt (d !! k).

(** [d.setdefault(k, v)]: writes only when the key is missing *)
Definition setdefault (k : string) (v : pyval) (d : attrs) : attrs :=
  match d !! k with
  | Some _ => d
  | None => <[k := v]> d
  end.

(** Decimal rendering of integers, as in [str(i)] and [f"{i}"]. *)
Definition string_of_nat (n : nat) : string :=
  NilEmpty.string_of_uint (Nat.to_uint n).

Definition string_of_Z (z : Z) : string :=
  NilEmpty.string_of_int (Z.to_int z).

(** [str(v)] *)
Definition py_str (v : pyval) : string :=
  match v with
  | VNone => "None"
  | VBool true => "True"
  | VBool false => "False"
  | VInt z => string_of_Z z
  | VStr s => s
  end.

(** [s.isascii()]: every character is below 128. *)
Fixpoint isascii (s : string) : bool :=
  match s with
  | EmptyString => true
  | String c s' => (nat_of_ascii c <? 128) && isascii s'
  end.

(** [s.lower()] on ASCII text, where only the letters A-Z change.  This is
    what [str.lower] does on a string [s] with [isascii s = true], and on no
    other; the statements that depend on the text of a query, of a node id
    or of a label assume it of that text. *)
Definition lower_ascii (c : ascii) : ascii :=
  let n := nat_of_ascii c in
  if (65 <=? n) && (n <=? 90) then ascii_of_nat (n + 32) else c.

Fixpoint lower (s : string) : string :=
  match s with
  | EmptyString => EmptyString
  | String c s' => String (lower_ascii c) (lower s')
  end.

(** [p in s] for strings: [p] occurs in [s] as a contiguous block. *)
Fixpoint startswith (s p : string) : bool :=
  match p, s with
  | EmptyString, _ => true
  | String a p', String b s' => Ascii.eqb a b && startswith s' p'
  | String _ _, EmptyString => false
  end.

Fixpoint py_in (p s : string) : bool :=
  startswith s p ||
  match s with
  | EmptyString => false
  | String _ s' => py_in p s'
  end.

(** List slicing [l[lo:hi]] with Python's treatment of negative and
    out-of-range bounds. *)
Definition slice_index (len : nat) (i : Z) : nat :=
  if decide (i < 0)%Z then Z.to_nat (Z.max 0 (i + Z.of_nat len))
  else Z.to_nat (Z.min i (Z.of_nat len)).

Definition py_slice {A} (lo hi : Z) (l : list A) : list A :=
  let a := slice_index (length l) lo in
  let b := slice_index (length l) hi in
  take (b - a) (drop a l).

(** [l[:hi]] *)
Definition py_slice_to {A} (hi : Z) (l : list A) : list A :=
  take (slice_index (length l) hi) l.

(** ** Python sets of node ids

    A [set] is represented by the list of its elements in order of first
    insertion.  Membership and [len] are read off that list.  Iterating a set
    walks its hash table, and for [str] keys the hash is salted per
    interpreter run, so the enumeration order is taken as a parameter
    ([set_iter] below) about which only one thing is known: it lists each
    element once. *)
Abbreviation pyset := (list string).

Definition set_add (s : pyset) (x : string) : pyset :=
  if decide (x ∈ s) then s else s ++ [x].

(** [s.update(xs)], also [s |= xs] *)
Definition set_update (s : pyset) (xs : list string) : pyset :=
  foldl set_add s xs.

Definition set_order_ok (set_iter : pyset → list string) : Prop :=
  ∀ s, NoDup s → set_iter s ≡ₚ s.

(** ** networkx.Graph *)

(** One slot of the graph: the node, its attribute dictionary
    ([G._node[n]]) and its adjacency dictionary ([G._adj[n]], neighbour to
    edge attributes, in insertion order).  networkx inserts into and deletes
    from [_node] and [_adj] together, so one ordered list carries both. *)
Record entry := Entry {
  nid : string;
  nattrs : attrs;
  nbrs : list (string * attrs)
}.

Abbreviation Graph := (list entry).
Abbreviation edge := (string * string * attrs)%type.

(** [list(G.nodes)] *)
Definition nodes (G : Graph) : list string := nid <$> G.

(** [G.number_of_nodes()] *)
Definition number_of_nodes (G : Graph) : nat := length G.

(** [G._adj[u]]; empty for a node that is not in the graph *)
Fixpoint adj (G : Graph) (u : string) : list (string * attrs) :=
  match G with
  | [] => []
  | e :: G' => if decide (nid e = u) then nbrs e else adj G' u
  end.

(** [G.neighbors(u)] *)
Definition neighbors (G : Graph) (u : string) : list string := (adj G u).*1.

(** [G.degree[n]]: a self-loop counts twice *)
Definition degree (G : Graph) (n : string) : nat :=
  length (adj G n) + (if decide (n ∈ neighbors G n) then 1 else 0).

(** [G.edges(data=True)]: every adjacency slot is walked in node order, and a
    neighbour that was already walked as a node is skipped, so each
    undirected edge is reported once. *)
Fixpoint edges_from (seen : list string) (G : Graph) : list edge :=
  match G with
  | [] => []
  | e :: G' =>
      ((λ vd : string * attrs, (nid e, vd.1, vd.2)) <$>
         filter (λ vd : string * attrs, vd.1 ∉ seen) (nbrs e))
      ++ edges_from (nid e :: seen) G'
  end.

Definition edges (G : Graph) : list edge := edges_from [] G.

(** [G.number_of_edges()]: half the degree sum *)
Definition number_of_edges (G : Graph) : nat :=
  (sum_list (degree G <$> nodes G)) / 2.

(** The graph with only the nodes satisfying [P], and the edges among them. *)
Definition restrict (P : string → Prop) `{!∀ x, Decision (P x)}
    (G : Graph) : Graph :=
  (λ e, Entry (nid e) (nattrs e) (filter (λ vd : string * attrs, P vd.1) (nbrs e)))
    <$> filter (λ e, P (nid e)) G.

(** [G.remove_nodes_from(l)] *)
Definition remove_nodes_from (G : Graph) (l : list string) : Graph :=
  restrict (λ n, n ∉ l) G.

(** [G.subgraph(keep).copy()]: the nodes of [G] that are in [keep], with
    their attributes, and the edges of [G] between them.  The order in which
    the copy lists its nodes is not modelled: networkx walks the nodes of [G]
    or, when [keep] is less than half of them, the set [keep] itself.  The
    list below is in the order of [G]; every statement about a subgraph
    speaks of which nodes and edges it has, never of their order. *)
Definition subgraph (G : Graph) (keep : list string) : Graph :=
  restrict (λ n, n ∈ keep) G.

(** Well-formed graphs: node ids are distinct, adjacency dictionaries have
    distinct keys, and every adjacency slot [v ∈ adj u] has its mirror
    [u ∈ adj v] carrying the same attribute dictionary (hence [v] is a node). *)
Definition wf (G : Graph) : Prop :=
  NoDup (nodes G) ∧
  Forall (λ e, NoDup (nbrs e).*1 ∧
               Forall (λ vd : string * attrs, (nid e, vd.2) ∈ adj G vd.1) (nbrs e)) G.

#[global] Instance wf_dec G : Decision (wf G).
Proof. unfold wf. apply _. Defined.

(** [(u, v)] is an edge of [G] with attribute dictionary [d]. *)
Definition has_edge (G : Graph) (u v : string) (d : attrs) : Prop :=
  (v, d) ∈ adj G u.

(** *** Connected components ([nx.connected_components]) *)

(** One level of [_plain_bfs]: scan the neighbours of every node of
    [thislevel]; unseen ones go to [seen] and to the next level. *)
Definition bfs_visit (st : pyset * list string) (w : string) : pyset * list string :=
  if decide (w ∈ st.1) then st else (st.1 ++ [w], st.2 ++ [w]).

Definition bfs_level (G : Graph) (seen : pyset) (thislevel : list string)
    : pyset * list string :=
  foldl (λ st v, foldl bfs_visit st (neighbors G v)) (seen, []) thislevel.

(** The [while nextlevel:] loop.  [None] means the fuel ran out. *)
Fixpoint bfs_loop (G : Graph) (fuel : nat) (seen : pyset) (nextlevel : list string)
    : option pyset :=
  match nextlevel with
  | [] => Some seen
  | _ :: _ =>
      match fuel with
      | 0 => None
      | S fuel' =>
          let st := bfs_level G seen nextlevel in
          bfs_loop G fuel' st.1 st.2
      end
  end.

Definition _plain_bfs (G : Graph) (source : string) : option pyset :=
  bfs_loop G (number_of_nodes G) [source] [source].

(** [for v in G: if v not in seen: c = _plain_bfs(G, v); seen.update(c); yield c] *)
Fixpoint cc_loop (G : Graph) (seen : pyset) (vs : list string)
    : option (list pyset) :=
  match vs with
  | [] => Some []
  | v :: vs' =>
      if decide (v ∈ seen) then cc_loop G seen vs'
      else
        c ← _plain_bfs G v;
        cs ← cc_loop G (set_update seen c) vs';
        Some (c :: cs)
  end.

Definition connected_components (G : Graph) : option (list pyset) :=
  cc_loop G [] (nodes G).

(** [sorted(comps, key=len, reverse=True)]: a stable sort, larger first. *)
Fixpoint insert_by_len (c : pyset) (l : list pyset) : list pyset :=
  match l with
  | [] => [c]
  | x :: l' =>
      if decide (length x ≤ length c) then c :: x :: l'
      else x :: insert_by_len c l'
  end.

Definition sorted_by_len_desc (l : list pyset) : list pyset :=
  foldr insert_by_len [] l.

(** *** Node-link data ([json_graph.node_link_data]) *)

(** [{**G.nodes[n], "id": n}] for each node *)
Definition node_link_nodes (G : Graph) : list attrs :=
  (λ e, <["id" := VStr (nid e)]> (nattrs e)) <$> G.

(** [{**d, "source": u, "target": v}] for each edge *)
Definition link_record (e : edge) : attrs :=
  <["target" := VStr e.1.2]> (<["source" := VStr e.1.1]> e.2).

Definition node_link_links (G : Graph) : list attrs :=
  link_record <$> edges G.

(** ** The endpoint helpers *)

(** *** [_nx_to_node_link] *)

Record NodeLink := mkNodeLink {
  nl_nodes : list attrs;
  nl_edges : list attrs
}.

(** Body of the loop over [data["nodes"]].  [node_link_data] always stores
    the node under ["id"], so the lookup [n["id"]] cannot fail; a record
    without a string id is left as it is. *)
Definition normalize_node (G : Graph) (n : attrs) : attrs :=
  let n1 := setdefault "label" (py_get n "id") n in
  match n1 !! "id" with
  | Some (VStr node_id) =>
      setdefault "degree"
        (VInt (if decide (node_id ∈ nodes G)
               then Z.of_nat (degree G node_id) else 0)) n1
  | _ => n1
  end.

(** Body of the loop over [enumerate(data["links"])]. *)
Definition normalize_edge (i : nat) (e : attrs) : attrs :=
  let e1 := setdefault "id" (VStr ("e" +:+ string_of_nat i)) e in
  match e1 !! "relation" with
  | Some r => setdefault "label" r e1
  | None => e1
  end.

Definition _nx_to_node_link (G : Graph) : NodeLink :=
  {| nl_nodes := normalize_node G <$> node_link_nodes G;
     nl_edges := imap normalize_edge (node_link_links G) |}.

(** *** [_filtered_graph] *)

(** [if min_degree > 0: H.remove_nodes_from([n for n in list(H.nodes)
    if H.degree[n] < min_degree])] *)
Definition degree_step (H : Graph) (min_degree : Z) : Graph :=
  if decide (0 < min_degree)%Z then
    remove_nodes_from H
      (filter (λ n, (Z.of_nat (degree H n) < min_degree)%Z) (nodes H))
  else H.

(** The test of the comprehension in the [if q:] branch. *)
Definition no_match (ql : string) (e : entry) : bool :=
  negb (py_in ql (lower (nid e))) &&
  negb (py_in ql
          (lower (py_str (py_get_default (nattrs e) "label" (VStr EmptyString))))).

Definition substring_step (H : Graph) (q : option string) : Graph :=
  match q with
  | Some qs =>
      if truthy (VStr qs) then
        let ql := lower qs in
        remove_nodes_from H (nid <$> filter (λ e, no_match ql e = true) H)
      else H
  | None => H
  end.

(** [for c in comps: if len(keep) + len(c) > max_nodes: break; keep.update(c)] *)
Fixpoint greedy_keep (max_nodes : Z) (keep : pyset) (comps : list pyset) : pyset :=
  match comps with
  | [] => keep
  | c :: comps' =>
      if decide (max_nodes < Z.of_nat (length keep) + Z.of_nat (length c))%Z
      then keep
      else greedy_keep max_nodes (set_update keep c) comps'
  end.

Definition downsample_step (H : Graph) (max_nodes : Z) : option Graph :=
  if decide ((max_nodes < Z.of_nat (number_of_nodes H))%Z ∧ 0 < number_of_nodes H)
  then
    comps ← connected_components H;
    Some (subgraph H (greedy_keep max_nodes [] (sorted_by_len_desc comps)))
  else Some H.

(** [None] stands for a connected-component search that ran out of fuel;
    [filtered_total] shows that this does not happen on a well-formed graph. *)
Definition _filtered_graph (G : Graph) (q : option string)
    (min_degree max_nodes : Z) : option Graph :=
  downsample_step (substring_step (degree_step G min_degree) q) max_nodes.

(** *** [_ego_subgraph] *)

Inductive exn := HTTPException (status : Z) (detail : string).

Inductive result (A : Type) :=
  | Ok (a : A)
  | Raise (e : exn).
Arguments Ok {A} a.
Arguments Raise {A} e.

Section Ego.
(** Enumeration order of a set, see [pyset]. *)
Variable set_iter : pyset → list string.

(** [nxt = set(); for u in frontier: nxt.update(G.neighbors(u))] *)
Definition next_frontier (G : Graph) (frontier : pyset) : pyset :=
  foldl (λ nxt u, set_update nxt (neighbors G u)) [] (set_iter frontier).

(** The [for _ in range(depth)] loop with its [break]; returns [nodes]. *)
Fixpoint ego_loop (G : Graph) (hops : nat) (max_nodes : Z)
    (visited frontier : pyset) : pyset :=
  match hops with
  | 0 => visited
  | S hops' =>
      let nxt := next_frontier G frontier in
      let visited' := set_update visited (set_iter nxt) in
      if decide (max_nodes ≤ Z.of_nat (length visited'))%Z then visited'
      else ego_loop G hops' max_nodes visited' nxt
  end.

Definition _ego_subgraph (G : Graph) (center : string) (depth max_nodes : Z)
    : result Graph :=
  if decide (center ∈ nodes G) then
    let visited := ego_loop G (Z.to_nat depth) max_nodes [center] [center] in
    Ok (subgraph G (py_slice_to max_nodes (set_iter visited)))
  else
    Raise (HTTPException 404 ("Center node '" +:+ center +:+ "' not found")).
End Ego.

(** *** [_derive_triplets_from_edges] and the triplets page *)

(** [{"subject": u, "relation": d.get("relation") or d.get("label"),
      "object": v, **{k: v for k, v in d.items() if k not in {"relation", "label"}}}]:
    keys of the trailing dictionary win over the three written out before it. *)
Definition triplet_row (e : edge) : attrs :=
  filter (λ kv : string * pyval, kv.1 ≠ "relation" ∧ kv.1 ≠ "label") e.2
  ∪ <["object" := VStr e.1.2]>
      (<["relation" := py_or (py_get e.2 "relation") (py_get e.2 "label")]>
         (<["subject" := VStr e.1.1]> ∅)).

Definition _derive_triplets_from_edges (G : Graph) : list attrs :=
  triplet_row <$> edges G.

Record TripletsPage := mkTripletsPage {
  count : Z;
  skip : Z;
  limit : Z;
  items : list attrs
}.

(** Body of the [/triplets] handler. *)
Definition get_triplets (G : Graph) (skip limit : Z) : TripletsPage :=
  let trips := _derive_triplets_from_edges G in
  let total := Z.of_nat (length trips) in
  let page := py_slice skip (skip + limit) trips in
  mkTripletsPage total skip limit page.

(** ** Providers and route handlers *)

(** The two graph providers of [kg_endpoints.py].  An index of
    [KGFromLlamaIndex] is represented by the graph that its
    [get_networkx_graph()] builds; [None] is an index that is not loaded. *)
Inductive KGProvider :=
  | KGFrozenGraph (graph : Graph)
  | KGFromLlamaIndex (idx : option Graph).

(** [provider.get_graph()] *)
Definition get_graph (provider : KGProvider) : result Graph :=
  match provider with
  | KGFrozenGraph graph => Ok graph
  | KGFromLlamaIndex idx =>
      match idx with
      | None => Raise (HTTPException 503 "KG index not loaded")
      | Some G => Ok G
      end
  end.

Record KGStats := mkKGStats {
  stats_nodes : nat;
  stats_edges : nat;
  stats_connected_components : nat
}.

(** The handlers of [create_kg_router].  A handler that searches for
    connected components answers [None] when that search runs out of fuel. *)
Module kg_endpoints.

Definition get_node_link (provider : KGProvider) (query : option string)
    (min_degree max_nodes : Z) : option (result NodeLink) :=
  match get_graph provider with
  | Raise e => Some (Raise e)
  | Ok G =>
      H ← _filtered_graph G query min_degree max_nodes;
      Some (Ok (_nx_to_node_link H))
  end.

Definition get_neighbors (set_iter : pyset → list string)
    (provider : KGProvider) (center : string) (depth max_nodes : Z)
    : result NodeLink :=
  match get_graph provider with
  | Raise e => Raise e
  | Ok G =>
      match _ego_subgraph set_iter G center depth max_nodes with
      | Raise e => Raise e
      | Ok H => Ok (_nx_to_node_link H)
      end
  end.

Definition get_triplets (provider : KGProvider) (skip limit : Z)
    : result TripletsPage :=
  match get_graph provider with
  | Raise e => Raise e
  | Ok G => Ok (get_triplets G skip limit)
  end.

(** [nx.number_connected_components(G)] counts what
    [nx.connected_components(G)] yields. *)
Definition stats (provider : KGProvider) : option (result KGStats) :=
  match get_graph provider with
  | Raise e => Some (Raise e)
  | Ok G =>
      comps ← connected_components G;
      Some (Ok (mkKGStats (number_of_nodes G) (number_of_edges G) (length comps)))
  end.

End kg_endpoints.

(** [sorted(names)] for strings: ascending by code point, which is the
    byte order of the encoded text. *)
Definition str_le (a b : string) : Prop := String.leb a b = true.

#[global] Instance str_le_dec a b : Decision (str_le a b).
Proof. unfold str_le. apply _. Defined.

Definition sorted_str (l : list string) : list string := merge_sort str_le l.

(** The two registries of [api.py], [KG_BY_FILE] and [KG_PERSIST_BY_FILE],
    and the two closures that [lifespan] hands to the per-file router. *)
Definition _get_index_by_file (KG_BY_FILE : gmap string Graph)
    (file_name : string) : option Graph :=
  KG_BY_FILE !! file_name.

Definition _list_files (KG_BY_FILE : gmap string Graph)
    (KG_PERSIST_BY_FILE : gmap string string) : list (string * option string) :=
  (λ fn, (fn, KG_PERSIST_BY_FILE !! fn)) <$> sorted_str (elements (dom KG_BY_FILE)).

Record KGFileEntry := mkKGFileEntry {
  file : string;
  stem : string;
  persist_dir : option string;
  file_nodes : option nat;
  file_edges : option nat
}.

(** The handlers of [create_kg_file_router], over the two callables the
    application supplies.  [path_stem] stands for [Path(file_name).stem]. *)
Module kg_file_endpoints.
Section handlers.
Variable path_stem : string → string.
Variable get_index_by_file : string → option Graph.
Variable list_files : list (string * option string).

Definition no_index (file : string) : exn :=
  HTTPException 404 ("No KG index loaded for file '" +:+ file +:+ "'").

Definition get_files : list KGFileEntry :=
  (λ fp : string * option string,
     let idx := get_index_by_file fp.1 in
     mkKGFileEntry fp.1 (path_stem fp.1) fp.2
       (number_of_nodes <$> idx) (number_of_edges <$> idx))
    <$> list_files.

Definition node_link (file : string) (query : option string)
    (min_degree max_nodes : Z) : option (result NodeLink) :=
  match get_index_by_file file with
  | None => Some (Raise (no_index file))
  | Some G =>
      H ← _filtered_graph G query min_degree max_nodes;
      Some (Ok (_nx_to_node_link H))
  end.

Definition neighbors (set_iter : pyset → list string) (file : string)
    (center : string) (depth max_nodes : Z) : result NodeLink :=
  match get_index_by_file file with
  | None => Raise (no_index file)
  | Some G =>
      match _ego_subgraph set_iter G center depth max_nodes with
      | Raise e => Raise e
      | Ok H => Ok (_nx_to_node_link H)
      end
  end.

Definition triplets (file : string) (skip limit : Z) : result TripletsPage :=
  match get_index_by_file file with
  | None => Raise (no_index file)
  | Some G => Ok (get_triplets G skip limit)
  end.

End handlers.
End kg_file_endpoints.

(** ** The title of a Markdown summary ([index.py])

    As for [lower], white space and line boundaries are those of ASCII text:
    [py_isspace] and [is_linebreak] are what [str.strip] and
    [str.splitlines] go by on a body with [isascii body = true], which the
    statement about the title assumes. *)

(** The ASCII characters that [str.strip()] removes: tab, line feed, vertical
    tab, form feed, carriage return, the four separators 28-31 and the
    space. *)
Definition py_isspace (c : ascii) : bool :=
  let n := nat_of_ascii c in
  ((9 <=? n) && (n <=? 13)) || ((28 <=? n) && (n <=? 32)).

(** The ASCII line boundaries of [str.splitlines()]: line feed, vertical
    tab, form feed, carriage return and the separators 28-30. *)
Definition is_linebreak (c : ascii) : bool :=
  let n := nat_of_ascii c in
  ((10 <=? n) && (n <=? 13)) || ((28 <=? n) && (n <=? 30)).

(** [s.splitlines()]: a carriage return followed by a line feed is one
    boundary, and a boundary at the very end opens no further line. *)
Fixpoint splitlines_from (line : string) (s : string) : list string :=
  match s with
  | EmptyString =>
      match line with
      | EmptyString => []
      | String _ _ => [line]
      end
  | String c s' =>
      if is_linebreak c then
        match s' with
        | String c' s'' =>
            if (nat_of_ascii c =? 13) && (nat_of_ascii c' =? 10)
            then line :: splitlines_from EmptyString s''
            else line :: splitlines_from EmptyString s'
        | EmptyString => line :: splitlines_from EmptyString s'
        end
      else splitlines_from (line +:+ String c EmptyString) s'
  end.

Definition splitlines (s : string) : list string := splitlines_from EmptyString s.

(** [s.lstrip()], [s.rstrip()], [s.strip()] *)
Fixpoint lstrip (s : string) : string :=
  match s with
  | EmptyString => EmptyString
  | String c s' => if py_isspace c then lstrip s' else s
  end.

Fixpoint rstrip (s : string) : string :=
  match s with
  | EmptyString => EmptyString
  | String c s' =>
      match rstrip s' with
      | EmptyString => if py_isspace c then EmptyString else String c EmptyString
      | String c' r => String c (String c' r)
      end
  end.

Definition strip (s : string) : string := lstrip (rstrip s).

(** [s[n:]] for [n >= 0] *)
Fixpoint str_from (n : nat) (s : string) : string :=
  match n, s with
  | 0, _ => s
  | S n', String _ s' => str_from n' s'
  | S _, EmptyString => EmptyString
  end.

(** The loop of [_extract_md_title] over the lines. *)
Fixpoint first_heading (lines : list string) : string :=
  match lines with
  | [] => EmptyString
  | l :: lines' =>
      let line := strip l in
      if startswith line "# " then strip (str_from 2 line)
      else first_heading lines'
  end.

Definition _extract_md_title (body : string) : string :=
  first_heading (splitlines body).

(** ** Example graphs *)

(** [V = {A,B,C,D}], [E = {(A,B,cites), (B,C,cites), (C,D)}] *)
Definition cites : attrs := {["relation" := VStr "cites"]}.

Definition path4 : Graph :=
  [ Entry "A" ∅ [("B", cites)];
    Entry "B" ∅ [("A", cites); ("C", cites)];
    Entry "C" ∅ [("B", cites); ("D", ∅)];
    Entry "D" ∅ [("C", ∅)] ].

(** A graph whose first edge already carries an [id] attribute that
    collides with the id synthesized for the second edge. *)
Definition stored_id : attrs := {["id" := VStr "e1"]}.

Definition graph_stored_id : Graph :=
  [ Entry "A" ∅ [("B", stored_id)];
    Entry "B" ∅ [("A", stored_id); ("C", ∅)];
    Entry "C" ∅ [("B", ∅)] ].

(** A graph whose only edge carries an empty [relation] and a [label]. *)
Definition empty_relation : attrs :=
  <["label" := VStr "x"]> {["relation" := VStr EmptyString]}.

Definition graph_empty_relation : Graph :=
  [ Entry "A" ∅ [("B", empty_relation)];
    Entry "B" ∅ [("A", empty_relation)] ].

(** Two people, one of them labelled. *)
Definition people : Graph :=
  [ Entry "Alice" {["label" := VStr "Researcher"]} [("Bob", ∅)];
    Entry "Bob" ∅ [("Alice", ∅)] ].

(** Two disjoint components, a triangle (found first) and a path on five
    nodes. *)
Definition five_and_three : Graph :=
  [ Entry "b1" ∅ [("b2", ∅); ("b3", ∅)];
    Entry "a1" ∅ [("a2", ∅)];
    Entry "a2" ∅ [("a1", ∅); ("a3", ∅)];
    Entry "b2" ∅ [("b1", ∅); ("b3", ∅)];
    Entry "a3" ∅ [("a2", ∅); ("a4", ∅)];
    Entry "b3" ∅ [("b1", ∅); ("b2", ∅)];
    Entry "a4" ∅ [("a3", ∅); ("a5", ∅)];
    Entry "a5" ∅ [("a4", ∅)] ].

(** A registry with one file. *)
Definition one_file_registry : gmap string Graph := {["paper_12.md" := path4]}.

(** ** Notions used in the statements *)

(** [p] occurs in [s]: some text before, then [p], then some text after. *)
Definition is_substring (p s : string) : Prop :=
  ∃ a b, s = a +:+ p +:+ b.

(** The label text the substring filter compares with: the node's [label]
    attribute as text, the empty string when there is none. *)
Definition label_or_empty (e : entry) : string :=
  match nattrs e !! "label" with
  | Some v => py_str v
  | None => EmptyString
  end.

(** A node matches a query when the lowered query occurs in its lowered id or
    in its lowered label text. *)
Definition matches (q : string) (e : entry) : Prop :=
  is_substring (lower q) (lower (nid e)) ∨
  is_substring (lower q) (lower (label_or_empty e)).

(** ASCII text, and graphs whose node ids and string labels are ASCII
    text. *)
Definition ascii_text (s : string) : Prop := isascii s = true.

Definition ascii_entry (e : entry) : bool :=
  isascii (nid e) &&
  match nattrs e !! "label" with
  | Some (VStr s) => isascii s
  | _ => true
  end.

Definition ascii_graph (G : Graph) : Prop := forallb ascii_entry G = true.

(** Comparison without regard to case, stated on the letters themselves: an
    upper-case letter [A]-[Z] pairs with the lower-case letter 32 places
    further on, two characters are the same letter when they are equal or
    pair up, and two texts are the same up to case when they are so
    character by character. *)
Definition pairs_with_lower (a b : ascii) : Prop :=
  65 ≤ nat_of_ascii a ≤ 90 ∧ nat_of_ascii b = nat_of_ascii a + 32.

Definition same_letter (a b : ascii) : Prop :=
  a = b ∨ pairs_with_lower a b ∨ pairs_with_lower b a.

Inductive same_text : string → string → Prop :=
  | same_text_nil : same_text EmptyString EmptyString
  | same_text_cons a b s t :
      same_letter a b → same_text s t → same_text (String a s) (String b t).

(** [q] occurs in [s] up to case: a contiguous block of [s] is the same text
    as [q] up to case. *)
Definition occurs_caseless (q s : string) : Prop :=
  ∃ a m b, s = a +:+ m +:+ b ∧ same_text q m.


(** The id that the serializer synthesizes for the edge at position [i]. *)
Definition edge_id (i : nat) : pyval := VStr ("e" +:+ string_of_nat i).

(** The relation of a triplet as the text of the specification has it: the
    [relation] attribute, the [label] attribute only when there is no
    [relation], else [None]. *)
Definition relation_else_label (d : attrs) : pyval :=
  match d !! "relation" with
  | Some r => r
  | None =>
      match d !! "label" with
      | Some l => l
      | None => VNone
      end
  end.

(** The relation of a triplet as the code computes it: a [relation] that is
    missing or falsy gives way to the [label] attribute ([None] without one). *)
Definition relation_or_label (d : attrs) : pyval :=
  match d !! "relation" with
  | Some r => if truthy r then r else default VNone (d !! "label")
  | None => default VNone (d !! "label")
  end.

(** [walk G c k v]: [v] is reached from [c] along [k] edges of [G]. *)
Inductive walk (G : Graph) (c : string) : nat → string → Prop :=
  | walk_O : walk G c 0 c
  | walk_S k u v : walk G c k u → v ∈ neighbors G u → walk G c (S k) v.

(** [v] is within [d] hops of [c]: its distance from [c] is at most [d]. *)
Definition within (G : Graph) (c : string) (d : nat) (v : string) : Prop :=
  ∃ k, k ≤ d ∧ walk G c k v.

(** The cap [max_nodes] is reached by a traversal of depth [d] from [c] when
    at least [max_nodes] distinct nodes lie within [d] hops of [c]. *)
Definition cap_reached (G : Graph) (c : string) (d : nat) (max_nodes : Z) : Prop :=
  ∃ l, NoDup l ∧ (∀ v, v ∈ l → within G c d v) ∧ (max_nodes ≤ Z.of_nat (length l))%Z.

(** Two nodes are adjacent when one is in the adjacency dictionary of the
    other; they are connected when a chain of adjacent nodes joins them. *)
Definition adjacent (G : Graph) (u v : string) : Prop :=
  v ∈ neighbors G u ∨ u ∈ neighbors G v.

Definition connected (G : Graph) : relation string := rtc (adjacent G).

(** [c] is a connected component of [G]: the nodes connected to one of its
    nodes. *)
Definition is_component (G : Graph) (c : pyset) : Prop :=
  ∃ s, s ∈ nodes G ∧ ∀ v, v ∈ c ↔ connected G s v.

(** The graph that reaches the downsampling step of [_filtered_graph]. *)
Definition prefiltered (G : Graph) (q : option string) (min_degree : Z) : Graph :=
  substring_step (degree_step G min_degree) q.

(** Larger (or equal) first. *)
Definition len_ge (a b : pyset) : Prop := length b ≤ length a.

(** [R] is an induced subgraph of [G]: its slots are slots of [G] with the
    node attributes unchanged, and its edges are exactly the edges of [G]
    between its nodes, with the edge attributes unchanged. *)
Definition induced_subgraph (R G : Graph) : Prop :=
  (∀ e', e' ∈ R → ∃ e, e ∈ G ∧ nid e = nid e' ∧ nattrs e = nattrs e')
  ∧ (∀ u v d, has_edge R u v d ↔ has_edge G u v d ∧ u ∈ nodes R ∧ v ∈ nodes R).

(** ** Lists, sets and slices *)

Lemma filter_ext_in {A} (P Q : A → Prop) `{!∀ x, Decision (P x)}
    `{!∀ x, Decision (Q x)} (l : list A) :
  (∀ x, x ∈ l → (P x ↔ Q x)) → filter P l = filter Q l.
Proof.
  induction l as [|a l IH]; intros HPQ; [done|].
  rewrite !filter_cons.
  rewrite IH by (intros x Hx; apply HPQ; by right).
  destruct (decide (P a)) as [Ha|Ha], (decide (Q a)) as [Hb|Hb]; try done.
  - destruct Hb. apply HPQ; [by left|done].
  - destruct Ha. apply HPQ; [by left|done].
Qed.

Lemma filter_all {A} (P : A → Prop) `{!∀ x, Decision (P x)} (l : list A) :
  (∀ x, x ∈ l → P x) → filter P l = l.
Proof.
  induction l as [|a l IH]; intros HP; [done|].
  rewrite filter_cons_True by (apply HP; by left).
  f_equal. apply IH. intros x Hx. apply HP. by right.
Qed.

Lemma filter_fmap_fst {A B} (P : A → Prop) `{!∀ x, Decision (P x)}
    (l : list (A * B)) :
  (filter (λ vd : A * B, P vd.1) l).*1 = filter P l.*1.
Proof.
  induction l as [|[a b] l IH]; [done|].
  rewrite fmap_cons, !filter_cons. simpl.
  destruct (decide (P a)); [rewrite fmap_cons; simpl; f_equal|]; exact IH.
Qed.

Lemma filter_fmap {A B} (f : A → B) (Q : B → Prop) `{!∀ y, Decision (Q y)}
    (l : list A) :
  filter Q (f <$> l) = f <$> filter (λ x, Q (f x)) l.
Proof.
  induction l as [|a l IH]; [done|].
  rewrite fmap_cons, !filter_cons.
  destruct (decide (Q (f a))); [rewrite fmap_cons; f_equal|]; exact IH.
Qed.

Lemma filter_none {A} (P : A → Prop) `{!∀ x, Decision (P x)} (l : list A) :
  (∀ x, x ∈ l → ¬ P x) → filter P l = [].
Proof.
  induction l as [|a l IH]; intros HP; [done|].
  rewrite filter_cons_False by (apply HP; by left).
  apply IH. intros x Hx. apply HP. by right.
Qed.

(** ** Slices *)

Lemma py_slice_nonneg {A} (lo len : Z) (l : list A) :
  (0 ≤ lo)%Z → (0 ≤ len)%Z →
  py_slice lo (lo + len) l = take (Z.to_nat len) (drop (Z.to_nat lo) l).
Proof.
  intros Hlo Hlen. unfold py_slice, slice_index.
  rewrite !decide_False by lia.
  destruct (decide (Z.of_nat (length l) ≤ lo)%Z) as [Hge|Hlt].
  - rewrite (drop_ge l (Z.to_nat lo)) by lia.
    rewrite (drop_ge l (Z.to_nat (Z.min _ _))) by lia.
    by rewrite !take_nil.
  - replace (Z.to_nat (lo `min` Z.of_nat (length l))) with (Z.to_nat lo) by lia.
    destruct (decide (lo + len ≤ Z.of_nat (length l))%Z) as [Hfit|Hover].
    + f_equal. lia.
    + rewrite !take_ge; [done| |]; rewrite length_drop; lia.
Qed.

(** ** Sets as insertion-ordered lists *)

Lemma elem_of_set_add s x y : y ∈ set_add s x ↔ y ∈ s ∨ y = x.
Proof.
  unfold set_add. destruct (decide (x ∈ s)) as [Hx|Hx].
  - split; [by left|]. intros [Hy| ->]; done.
  - rewrite elem_of_app, list_elem_of_singleton. done.
Qed.

Lemma NoDup_set_add s x : NoDup s → NoDup (set_add s x).
Proof.
  intros Hs. unfold set_add. destruct (decide (x ∈ s)) as [Hx|Hx]; [done|].
  apply NoDup_app. split; [done|]. split.
  - intros y Hy Hyx. apply list_elem_of_singleton in Hyx as ->. done.
  - apply NoDup_singleton.
Qed.

Lemma elem_of_set_update s l y : y ∈ set_update s l ↔ y ∈ s ∨ y ∈ l.
Proof.
  unfold set_update. revert s. induction l as [|x l IH]; intros s; simpl.
  - rewrite elem_of_nil. tauto.
  - rewrite IH, elem_of_set_add, elem_of_cons. tauto.
Qed.

Lemma NoDup_set_update s l : NoDup s → NoDup (set_update s l).
Proof.
  unfold set_update. revert s. induction l as [|x l IH]; intros s Hs; simpl.
  - done.
  - apply IH. by apply NoDup_set_add.
Qed.

Lemma NoDup_subseteq_length (l k : list string) :
  NoDup l → (∀ x, x ∈ l → x ∈ k) → length l ≤ length k.
Proof.
  intros Hl Hsub. apply submseteq_length. by apply NoDup_submseteq.
Qed.

(** Filtering a duplicate-free list by membership in a duplicate-free
    sublist gives that sublist back, up to order. *)
Lemma filter_elem_of_Permutation (l k : list string) :
  NoDup l → NoDup k → (∀ x, x ∈ k → x ∈ l) →
  filter (λ x, x ∈ k) l ≡ₚ k.
Proof.
  intros Hl Hk Hsub. apply NoDup_Permutation; [by apply NoDup_filter|done|].
  intros x. rewrite list_elem_of_filter. split; [tauto|]. intros Hx. auto.
Qed.

(** ** The graph model *)

Lemma elem_of_nodes G n : n ∈ nodes G ↔ ∃ e, e ∈ G ∧ nid e = n.
Proof.
  unfold nodes. rewrite list_elem_of_fmap. split.
  - intros (e & -> & He). by exists e.
  - intros (e & He & <-). by exists e.
Qed.

Lemma adj_not_node G u : u ∉ nodes G → adj G u = [].
Proof.
  induction G as [|e G IH]; [done|]. simpl. intros Hu.
  rewrite not_elem_of_cons in Hu. destruct Hu as [Hne Hu].
  destruct (decide (nid e = u)); [congruence|auto].
Qed.

Lemma adj_elem_of_node G u vd : vd ∈ adj G u → u ∈ nodes G.
Proof.
  intros Hvd. destruct (decide (u ∈ nodes G)) as [|Hn]; [done|].
  rewrite adj_not_node in Hvd by done. by apply elem_of_nil in Hvd.
Qed.

Lemma adj_entry G e : NoDup (nodes G) → e ∈ G → adj G (nid e) = nbrs e.
Proof.
  induction G as [|e' G IH]; intros Hnd He.
  - by apply elem_of_nil in He.
  - simpl in *. apply NoDup_cons in Hnd as [Hnotin Hnd].
    apply elem_of_cons in He as [->|He].
    + by rewrite decide_True.
    + rewrite decide_False; [by apply IH|].
      intros Heq. apply Hnotin. rewrite Heq. by apply list_elem_of_fmap_2.
Qed.

Lemma adj_lookup G u : u ∈ nodes G → ∃ e, e ∈ G ∧ nid e = u ∧ adj G u = nbrs e.
Proof.
  induction G as [|e' G IH]; intros Hu.
  - by apply elem_of_nil in Hu.
  - simpl. destruct (decide (nid e' = u)) as [Heq|Hne].
    + exists e'. split; [by left|done].
    + simpl in Hu. apply elem_of_cons in Hu as [Hu|Hu]; [congruence|].
      destruct (IH Hu) as (e & He & Hid & Hadj).
      exists e. split; [by right|done].
Qed.

(** In a well-formed graph adjacency is symmetric and stays inside the graph. *)
Lemma wf_symmetric G u v d : wf G → has_edge G u v d → has_edge G v u d.
Proof.
  intros [_ Hall] Huv. unfold has_edge in *.
  destruct (adj_lookup G u) as (e & He & Hid & Hadj);
    [by eapply adj_elem_of_node|].
  rewrite Forall_forall in Hall. destruct (Hall e He) as [_ Hmir].
  rewrite Forall_forall in Hmir. rewrite Hadj in Huv.
  specialize (Hmir _ Huv). simpl in Hmir. by rewrite Hid in Hmir.
Qed.

Lemma wf_has_edge_nodes G u v d :
  wf G → has_edge G u v d → u ∈ nodes G ∧ v ∈ nodes G.
Proof.
  intros Hwf Huv. split.
  - by eapply adj_elem_of_node.
  - eapply adj_elem_of_node. by apply wf_symmetric.
Qed.

Lemma wf_neighbors_nodes G u v : wf G → v ∈ neighbors G u → v ∈ nodes G.
Proof.
  intros Hwf Hv. unfold neighbors in Hv.
  apply list_elem_of_fmap in Hv as ([v' d] & -> & Hvd).
  by apply (wf_has_edge_nodes G u v' d).
Qed.

Lemma wf_neighbors_sym G u v : wf G → v ∈ neighbors G u → u ∈ neighbors G v.
Proof.
  intros Hwf Hv. unfold neighbors in *.
  apply list_elem_of_fmap in Hv as ([v' d] & -> & Hvd).
  apply (wf_symmetric G u v' d Hwf) in Hvd.
  apply list_elem_of_fmap. by exists (u, d).
Qed.

Lemma wf_adj_NoDup G u : wf G → NoDup (neighbors G u).
Proof.
  intros [_ Hall]. unfold neighbors.
  destruct (decide (u ∈ nodes G)) as [Hu|Hu].
  - destruct (adj_lookup G u Hu) as (e & He & _ & ->).
    rewrite Forall_forall in Hall. by destruct (Hall e He).
  - rewrite adj_not_node by done. constructor.
Qed.

Section restrict.
Context (P : string → Prop) `{!∀ x, Decision (P x)}.

Lemma restrict_cons e G :
  restrict P (e :: G) =
    if decide (P (nid e))
    then Entry (nid e) (nattrs e)
           (filter (λ vd : string * attrs, P vd.1) (nbrs e)) :: restrict P G
    else restrict P G.
Proof.
  unfold restrict. rewrite filter_cons. by destruct (decide (P (nid e))).
Qed.

Lemma nodes_restrict G : nodes (restrict P G) = filter P (nodes G).
Proof.
  induction G as [|e G IH]; [done|].
  rewrite restrict_cons. unfold nodes in *. rewrite fmap_cons, filter_cons.
  destruct (decide (P (nid e))); [rewrite fmap_cons; simpl; f_equal|]; exact IH.
Qed.

Lemma adj_restrict G u :
  adj (restrict P G) u =
    if decide (P u) then filter (λ vd : string * attrs, P vd.1) (adj G u) else [].
Proof.
  induction G as [|e G IH].
  - simpl. by destruct (decide (P u)).
  - rewrite restrict_cons. simpl.
    destruct (decide (P (nid e))) as [Hp|Hp]; simpl.
    + destruct (decide (nid e = u)) as [<-|Hne]; [|done].
      by rewrite decide_True.
    + rewrite IH. destruct (decide (nid e = u)) as [<-|Hne]; [|done].
      destruct (decide (P (nid e))); [contradiction|done].
Qed.

Lemma has_edge_restrict G u v d :
  has_edge (restrict P G) u v d ↔ has_edge G u v d ∧ P u ∧ P v.
Proof.
  unfold has_edge. rewrite adj_restrict.
  destruct (decide (P u)) as [Hu|Hu].
  - rewrite list_elem_of_filter. simpl. tauto.
  - rewrite elem_of_nil. tauto.
Qed.

Lemma neighbors_restrict G u :
  neighbors (restrict P G) u = if decide (P u) then filter P (neighbors G u) else [].
Proof.
  unfold neighbors. rewrite adj_restrict.
  destruct (decide (P u)); [|done]. apply filter_fmap_fst.
Qed.

Lemma wf_restrict G : wf G → wf (restrict P G).
Proof.
  intros Hwf. pose proof Hwf as [Hnd Hall]. split.
  - rewrite nodes_restrict. by apply NoDup_filter.
  - rewrite Forall_forall. intros e' He'.
    unfold restrict in He'. apply list_elem_of_fmap in He' as (e & -> & He).
    apply list_elem_of_filter in He as [HPe He]. simpl.
    rewrite Forall_forall in Hall. destruct (Hall e He) as [Hnbrs Hmir].
    split.
    + pose proof (filter_fmap_fst P (nbrs e)) as Heq. simpl in Heq.
      rewrite Heq. by apply NoDup_filter.
    + rewrite Forall_forall. intros [v d] Hvd. simpl.
      apply list_elem_of_filter in Hvd as [HPv Hvd]. simpl in HPv.
      rewrite Forall_forall in Hmir. specialize (Hmir _ Hvd). simpl in Hmir.
      apply has_edge_restrict. done.
Qed.

(** Edge iteration commutes with restriction: the surviving edges come out
    in the same order. *)
Lemma edges_from_restrict seen seen' G :
  (∀ v, P v → (v ∈ seen' ↔ v ∈ seen)) →
  edges_from seen' (restrict P G) =
    filter (λ e : edge, P e.1.1 ∧ P e.1.2) (edges_from seen G).
Proof.
  revert seen seen'. induction G as [|e G IH]; intros seen seen' Hseen; [done|].
  rewrite restrict_cons. simpl. rewrite filter_app.
  destruct (decide (P (nid e))) as [Hp|Hp]; simpl.
  - f_equal.
    + rewrite filter_fmap, !list_filter_filter. f_equal.
      apply list_filter_iff. intros [v d]. simpl.
      split.
      * intros [Hs Hv]. rewrite (Hseen v Hv) in Hs. done.
      * intros [[_ Hv] Hs]. rewrite <- (Hseen v Hv) in Hs. done.
    + apply IH. intros v Hv. rewrite !elem_of_cons. by rewrite (Hseen v Hv).
  - rewrite filter_fmap, (filter_none _ (filter _ (nbrs e)));
      [|intros x _ [Hx _]; done].
    simpl. apply IH. intros v Hv. rewrite elem_of_cons, (Hseen v Hv).
    split; [tauto|]. intros [->|]; done.
Qed.
End restrict.

Lemma edges_from_source seen G u v d :
  (u, v, d) ∈ edges_from seen G → u ∈ nodes G.
Proof.
  revert seen. induction G as [|e G IH]; intros seen Hin; simpl in Hin.
  - by apply elem_of_nil in Hin.
  - apply elem_of_app in Hin as [Hin|Hin].
    + apply list_elem_of_fmap in Hin as (vd & Heq & _).
      injection Heq as -> _ _. by left.
    + right. by eapply IH.
Qed.

(** Every reported edge sits in the adjacency dictionary of its source. *)
Lemma edges_from_has_edge seen G u v d :
  NoDup (nodes G) → (u, v, d) ∈ edges_from seen G → has_edge G u v d.
Proof.
  unfold has_edge.
  revert seen. induction G as [|e G IH]; intros seen Hnd Hin; simpl in *.
  - by apply elem_of_nil in Hin.
  - apply NoDup_cons in Hnd as [Hnotin Hnd].
    apply elem_of_app in Hin as [Hin|Hin].
    + apply list_elem_of_fmap in Hin as ([v' d'] & Heq & Hvd).
      injection Heq as -> -> ->. rewrite decide_True by done.
      by apply list_elem_of_filter in Hvd as [_ Hvd].
    + rewrite decide_False.
      * by eapply IH.
      * intros Heq. apply Hnotin. rewrite Heq. by eapply edges_from_source.
Qed.

Lemma edges_has_edge G u v d : wf G → (u, v, d) ∈ edges G → has_edge G u v d.
Proof. intros [Hnd _]. by apply edges_from_has_edge. Qed.

Lemma edges_endpoints G u v d :
  wf G → (u, v, d) ∈ edges G → u ∈ nodes G ∧ v ∈ nodes G.
Proof.
  intros Hwf Hin. eapply wf_has_edge_nodes; [done|]. by apply edges_has_edge.
Qed.

Lemma edges_restrict (P : string → Prop) `{!∀ x, Decision (P x)} G :
  edges (restrict P G) = filter (λ e : edge, P e.1.1 ∧ P e.1.2) (edges G).
Proof. by apply edges_from_restrict. Qed.

(** Removing a list of nodes leaves the remaining nodes in place and keeps
    exactly the edges whose two ends both remain. *)
Lemma nodes_remove_nodes_from G l :
  nodes (remove_nodes_from G l) = filter (λ n, n ∉ l) (nodes G).
Proof. apply nodes_restrict. Qed.

Lemma edges_remove_nodes_from G l :
  edges (remove_nodes_from G l) =
    filter (λ e : edge, (e.1.1 ∉ l) ∧ (e.1.2 ∉ l)) (edges G).
Proof. unfold remove_nodes_from. by rewrite edges_restrict. Qed.

(** ** Edge iteration and the number of edges *)

Lemma edges_from_target seen G u v d : (u, v, d) ∈ edges_from seen G → v ∉ seen.
Proof.
  revert seen. induction G as [|e G IH]; intros seen Hin; simpl in Hin.
  - by apply elem_of_nil in Hin.
  - apply elem_of_app in Hin as [Hin|Hin].
    + apply list_elem_of_fmap in Hin as ([v' d'] & Heq & Hvd).
      injection Heq as _ -> _. by apply list_elem_of_filter in Hvd as [Hv _].
    + apply IH in Hin. intros Hv. apply Hin. by right.
Qed.

Lemma restrict_peel e G :
  restrict (λ n, n ≠ nid e) (e :: G) = restrict (λ n, n ≠ nid e) G.
Proof. rewrite restrict_cons. by rewrite decide_False by (intros Hne; by apply Hne). Qed.

Lemma nodes_restrict_peel e G :
  NoDup (nodes (e :: G)) → nodes (restrict (λ n, n ≠ nid e) G) = nodes G.
Proof.
  intros Hnd. simpl in Hnd. apply NoDup_cons in Hnd as [Hnotin _].
  rewrite nodes_restrict. apply filter_all. intros x Hx ->. done.
Qed.

(** The edges of a graph: those at its first node, then the edges of the
    graph without that node. *)
Lemma edges_peel e G :
  NoDup (nodes (e :: G)) →
  edges (e :: G) =
    ((λ vd : string * attrs, (nid e, vd.1, vd.2)) <$> nbrs e)
    ++ edges (restrict (λ n, n ≠ nid e) G).
Proof.
  intros Hnd. simpl in Hnd. apply NoDup_cons in Hnd as [Hnotin _].
  unfold edges. simpl. f_equal.
  - f_equal. apply filter_all. intros x _. apply not_elem_of_nil.
  - rewrite (edges_from_restrict (λ n, n ≠ nid e) [nid e] [] G).
    + symmetry. apply filter_all. intros [[u v] d] Hin. simpl. split.
      * intros ->. apply Hnotin. by eapply edges_from_source.
      * intros ->. apply edges_from_target in Hin. apply Hin. by left.
    + intros v Hv. rewrite elem_of_nil, list_elem_of_singleton. tauto.
Qed.

Lemma length_filter_ne (l : list string) x :
  NoDup l →
  length (filter (λ y, y ≠ x) l) + (if decide (x ∈ l) then 1 else 0) = length l.
Proof.
  induction l as [|a l IH]; intros Hnd; [done|].
  apply NoDup_cons in Hnd as [Ha Hnd]. specialize (IH Hnd).
  rewrite filter_cons. destruct (decide (a ≠ x)) as [Hne|Heq].
  - simpl. destruct (decide (x ∈ l)) as [Hx|Hx].
    + rewrite decide_True by (by right). lia.
    + rewrite decide_False; [lia|]. intros Hin.
      apply elem_of_cons in Hin as [->|Hin]; done.
  - assert (a = x) as -> by (destruct (decide (a = x)); [done|contradiction]).
    rewrite decide_True by (by left). rewrite decide_False in IH by done.
    simpl. lia.
Qed.

Lemma sum_list_indicator {A} (f g : A → nat) (P : A → Prop)
    `{!∀ x, Decision (P x)} (l : list A) :
  (∀ x, x ∈ l → f x = g x + (if decide (P x) then 1 else 0)) →
  sum_list (f <$> l) = sum_list (g <$> l) + length (filter P l).
Proof.
  induction l as [|a l IH]; intros Hfg; [done|].
  rewrite !fmap_cons, filter_cons. simpl.
  rewrite IH by (intros x Hx; apply Hfg; by right).
  rewrite (Hfg a) by (by left).
  destruct (decide (P a)); simpl; lia.
Qed.

Lemma degree_peel e G u :
  wf (e :: G) → u ∈ nodes G →
  degree (e :: G) u =
    degree (restrict (λ n, n ≠ nid e) G) u
    + (if decide (nid e ∈ neighbors (e :: G) u) then 1 else 0).
Proof.
  intros Hwf Hu. pose proof Hwf as [Hnd _]. simpl in Hnd.
  apply NoDup_cons in Hnd as [Hnotin _].
  assert (Hne : u ≠ nid e) by (intros ->; done).
  pose proof (wf_adj_NoDup (e :: G) u Hwf) as Hnbrs.
  unfold degree.
  rewrite (neighbors_restrict (λ n, n ≠ nid e)).
  destruct (decide (u ≠ nid e)) as [_|Hcontra]; [|contradiction].
  assert (Hadj : length (adj (restrict (λ n, n ≠ nid e) G) u)
                 = length (filter (λ y, y ≠ nid e) (neighbors (e :: G) u))).
  { rewrite (adj_restrict (λ n, n ≠ nid e)).
    destruct (decide (u ≠ nid e)) as [_|Hcontra]; [|contradiction].
    unfold neighbors. simpl.
    destruct (decide (nid e = u)) as [Heq|_]; [congruence|].
    rewrite <- filter_fmap_fst. by rewrite length_fmap. }
  rewrite Hadj.
  pose proof (length_filter_ne (neighbors (e :: G) u) (nid e) Hnbrs) as Hlen.
  assert (Hself : (u ∈ filter (λ n, n ≠ nid e) (neighbors G u))
                  ↔ u ∈ neighbors (e :: G) u).
  { rewrite list_elem_of_filter. unfold neighbors. simpl.
    destruct (decide (nid e = u)) as [Heq|_]; [congruence|]. tauto. }
  assert (Hlenadj : length (adj (e :: G) u) = length (neighbors (e :: G) u))
    by (unfold neighbors; by rewrite length_fmap).
  rewrite Hlenadj.
  destruct (decide (u ∈ neighbors (e :: G) u)) as [Hs|Hs].
  - rewrite decide_True by (by apply Hself). lia.
  - rewrite decide_False by (by rewrite Hself). lia.
Qed.

Lemma sum_degrees_peel e G :
  wf (e :: G) →
  sum_list (degree (e :: G) <$> nodes (e :: G)) =
    2 * length (nbrs e)
    + sum_list (degree (restrict (λ n, n ≠ nid e) G)
                  <$> nodes (restrict (λ n, n ≠ nid e) G)).
Proof.
  intros Hwf. pose proof Hwf as [Hnd _].
  rewrite (nodes_restrict_peel e G) by done.
  simpl in Hnd. apply NoDup_cons in Hnd as [Hnotin HndG].
  change (nodes (e :: G)) with (nid e :: nodes G). rewrite fmap_cons. simpl.
  rewrite (sum_list_indicator (degree (e :: G))
             (degree (restrict (λ n, n ≠ nid e) G))
             (λ u, nid e ∈ neighbors (e :: G) u))
    by (intros u Hu; by apply degree_peel).
  pose proof (wf_adj_NoDup (e :: G) (nid e) Hwf) as Hnbrs.
  pose proof (length_filter_ne (neighbors (e :: G) (nid e)) (nid e) Hnbrs) as Hlen.
  assert (Hperm : filter (λ u, nid e ∈ neighbors (e :: G) u) (nodes G)
                  ≡ₚ filter (λ y, y ≠ nid e) (neighbors (e :: G) (nid e))).
  { apply NoDup_Permutation; [by apply NoDup_filter|by apply NoDup_filter|].
    intros u. rewrite !list_elem_of_filter. split.
    - intros [Hin Hu]. split; [intros ->; done|].
      by apply wf_neighbors_sym.
    - intros [Hne Hin]. split; [by apply wf_neighbors_sym|].
      apply (wf_neighbors_nodes _ _ _ Hwf) in Hin.
      change (nodes (e :: G)) with (nid e :: nodes G) in Hin.
      apply elem_of_cons in Hin as [->|Hin]; done. }
  rewrite Hperm.
  assert (Hn0 : neighbors (e :: G) (nid e) = (nbrs e).*1).
  { unfold neighbors. simpl. by rewrite decide_True. }
  assert (Hdeg : degree (e :: G) (nid e)
                 = length (nbrs e)
                   + (if decide (nid e ∈ neighbors (e :: G) (nid e)) then 1 else 0)).
  { unfold degree. simpl. by rewrite decide_True. }
  rewrite Hdeg. rewrite Hn0 in Hlen |- *. rewrite length_fmap in Hlen. lia.
Qed.

Lemma length_restrict_le (P : string → Prop) `{!∀ x, Decision (P x)} G :
  length (restrict P G) ≤ length G.
Proof. unfold restrict. rewrite length_fmap. apply length_filter. Qed.

(** Handshake: in a well-formed graph the degrees add up to twice the number
    of edges that [G.edges] reports. *)
Lemma sum_degrees_edges G :
  wf G → sum_list (degree G <$> nodes G) = 2 * length (edges G).
Proof.
  remember (length G) as n eqn:Hn. revert G Hn.
  induction n as [n IH] using lt_wf_ind. intros G Hn Hwf.
  destruct G as [|e G]; [done|].
  pose proof Hwf as [Hnd _].
  rewrite sum_degrees_peel, edges_peel by done.
  rewrite length_app, length_fmap.
  rewrite (IH (length (restrict (λ n, n ≠ nid e) G))); [lia| |done|].
  - pose proof (length_restrict_le (λ n, n ≠ nid e) G). simpl in Hn. lia.
  - rewrite <- restrict_peel. by apply wf_restrict.
Qed.

Lemma number_of_edges_edges G : wf G → number_of_edges G = length (edges G).
Proof.
  intros Hwf. unfold number_of_edges. rewrite sum_degrees_edges by done.
  rewrite Nat.mul_comm. apply Nat.div_mul. done.
Qed.

(** Every edge of a well-formed graph is reported by [G.edges], from one end
    or from the other. *)
Lemma has_edge_edges G u v d :
  wf G → has_edge G u v d → (u, v, d) ∈ edges G ∨ (v, u, d) ∈ edges G.
Proof.
  remember (length G) as n eqn:Hn. revert G Hn.
  induction n as [n IH] using lt_wf_ind. intros G Hn Hwf Huv.
  destruct G as [|e G]; [by apply elem_of_nil in Huv|].
  pose proof Hwf as [Hnd _]. rewrite edges_peel by done.
  assert (Hadj0 : adj (e :: G) (nid e) = nbrs e) by (simpl; by rewrite decide_True).
  destruct (decide (u = nid e)) as [->|Hu].
  { left. apply elem_of_app. left. unfold has_edge in Huv. rewrite Hadj0 in Huv.
    apply list_elem_of_fmap. by exists (v, d). }
  destruct (decide (v = nid e)) as [->|Hv].
  { right. apply elem_of_app. left. apply (wf_symmetric _ _ _ _ Hwf) in Huv.
    unfold has_edge in Huv. rewrite Hadj0 in Huv.
    apply list_elem_of_fmap. by exists (u, d). }
  assert (Hsub : has_edge (restrict (λ n, n ≠ nid e) G) u v d).
  { rewrite <- restrict_peel. by apply has_edge_restrict. }
  destruct (IH (length (restrict (λ n, n ≠ nid e) G))
              ltac:(pose proof (length_restrict_le (λ n, n ≠ nid e) G);
                    simpl in Hn; lia)
              (restrict (λ n, n ≠ nid e) G) eq_refl) as [Hin|Hin].
  - rewrite <- restrict_peel. by apply wf_restrict.
  - done.
  - left. apply elem_of_app. by right.
  - right. apply elem_of_app. by right.
Qed.

(** ** Subgraphs *)

Lemma nodes_subgraph G keep :
  nodes (subgraph G keep) = filter (λ n, n ∈ keep) (nodes G).
Proof. apply nodes_restrict. Qed.

Lemma elem_of_nodes_subgraph G keep v :
  v ∈ nodes (subgraph G keep) ↔ v ∈ nodes G ∧ v ∈ keep.
Proof. rewrite nodes_subgraph, list_elem_of_filter. tauto. Qed.

Lemma has_edge_subgraph G keep u v d :
  has_edge (subgraph G keep) u v d ↔ has_edge G u v d ∧ u ∈ keep ∧ v ∈ keep.
Proof. apply (has_edge_restrict (λ n, n ∈ keep)). Qed.

(** The edges of an induced subgraph are the edges of [G] between kept nodes. *)
Lemma has_edge_subgraph_nodes G keep u v d :
  wf G →
  has_edge (subgraph G keep) u v d ↔
    has_edge G u v d ∧ u ∈ nodes (subgraph G keep) ∧ v ∈ nodes (subgraph G keep).
Proof.
  intros Hwf. rewrite has_edge_subgraph, !elem_of_nodes_subgraph. split.
  - intros (Huv & Hu & Hv).
    destruct (wf_has_edge_nodes G u v d Hwf Huv). tauto.
  - tauto.
Qed.

Lemma length_nodes_subgraph G keep :
  wf G → NoDup keep → (∀ x, x ∈ keep → x ∈ nodes G) →
  length (nodes (subgraph G keep)) = length keep.
Proof.
  intros [Hnd _] Hkeep Hsub. rewrite nodes_subgraph.
  by rewrite (filter_elem_of_Permutation (nodes G) keep).
Qed.

(** ** Walks and distances *)

Lemma walk_node G c k v : wf G → c ∈ nodes G → walk G c k v → v ∈ nodes G.
Proof.
  intros Hwf Hc Hw. induction Hw as [|k u v _ _ Hv]; [done|].
  by eapply wf_neighbors_nodes.
Qed.

Lemma within_node G c d v : wf G → c ∈ nodes G → within G c d v → v ∈ nodes G.
Proof. intros Hwf Hc (k & _ & Hw). by eapply walk_node. Qed.

Lemma within_O G c v : within G c 0 v ↔ v = c.
Proof.
  split.
  - intros (k & Hk & Hw). assert (k = 0) as -> by lia. by inversion Hw.
  - intros ->. exists 0. split; [done|constructor].
Qed.

Lemma within_S G c d v : within G c (S d) v ↔ within G c d v ∨ walk G c (S d) v.
Proof.
  split.
  - intros (k & Hk & Hw). destruct (decide (k = S d)) as [->|Hne].
    + by right.
    + left. exists k. split; [lia|done].
  - intros [(k & Hk & Hw)|Hw].
    + exists k. split; [lia|done].
    + exists (S d). split; [done|done].
Qed.

Lemma within_mono G c d d' v : d ≤ d' → within G c d v → within G c d' v.
Proof. intros Hd (k & Hk & Hw). exists k. split; [lia|done]. Qed.

Lemma walk_S_iff G c k v :
  walk G c (S k) v ↔ ∃ u, walk G c k u ∧ v ∈ neighbors G u.
Proof.
  split.
  - intros Hw. inversion Hw as [|k' u v' Hu Hv]; subst. by exists u.
  - intros (u & Hu & Hv). by econstructor.
Qed.

(** ** The degree filter *)

Lemma nodes_degree_step G m :
  nodes (degree_step G m) =
    filter (λ n, (m ≤ Z.of_nat (degree G n))%Z) (nodes G).
Proof.
  unfold degree_step. destruct (decide (0 < m)%Z) as [Hm|Hm].
  - rewrite nodes_remove_nodes_from. apply filter_ext_in. intros n Hn.
    rewrite list_elem_of_filter. split.
    + intros Hnot. destruct (decide (m ≤ Z.of_nat (degree G n))%Z); [done|].
      destruct Hnot. split; [lia|done].
    + intros Hle [Hlt _]. lia.
  - symmetry. apply filter_all. intros n _. lia.
Qed.

Lemma edges_degree_step G m :
  wf G →
  edges (degree_step G m) =
    filter (λ e : edge, (m ≤ Z.of_nat (degree G e.1.1))%Z ∧
                        (m ≤ Z.of_nat (degree G e.1.2))%Z) (edges G).
Proof.
  intros Hwf. unfold degree_step. destruct (decide (0 < m)%Z) as [Hm|Hm].
  - rewrite edges_remove_nodes_from. apply filter_ext_in.
    intros [[u v] d] He. simpl.
    destruct (edges_endpoints G u v d Hwf He) as [Hu Hv].
    rewrite !list_elem_of_filter. split.
    + intros [Hnu Hnv]. split.
      * destruct (decide (m ≤ Z.of_nat (degree G u))%Z); [done|].
        destruct Hnu. split; [lia|done].
      * destruct (decide (m ≤ Z.of_nat (degree G v))%Z); [done|].
        destruct Hnv. split; [lia|done].
    + intros [Hdu Hdv]. split; intros [Hlt _]; lia.
  - symmetry. apply filter_all. intros e _. lia.
Qed.

Lemma wf_degree_step G m : wf G → wf (degree_step G m).
Proof.
  intros Hwf. unfold degree_step. destruct (decide (0 < m)%Z); [|done].
  by apply wf_restrict.
Qed.

(** C7. The degree-filter step of [_filtered_graph], for a non-negative
    [min_degree]: the nodes kept are exactly those whose degree in the graph
    the step received is at least [min_degree] (degrees are read before
    anything is removed), the edges kept are exactly those with both ends
    kept, and [min_degree = 0] returns the graph as it is. *)
Theorem degree_filter_keeps_by_input_degree (G : Graph) (m : Z) :
  wf G → (0 ≤ m)%Z →
  nodes (degree_step G m) =
    filter (λ n, (m ≤ Z.of_nat (degree G n))%Z) (nodes G)
  ∧ edges (degree_step G m) =
      filter (λ e : edge, (e.1.1 ∈ nodes (degree_step G m)) ∧
                          (e.1.2 ∈ nodes (degree_step G m))) (edges G)
  ∧ (m = 0%Z → degree_step G m = G).
Proof.
  intros Hwf Hm. split; [apply nodes_degree_step|]. split.
  - rewrite edges_degree_step by done. apply filter_ext_in.
    intros [[u v] d] He. simpl.
    destruct (edges_endpoints G u v d Hwf He) as [Hu Hv].
    rewrite nodes_degree_step, !list_elem_of_filter. tauto.
  - intros ->. reflexivity.
Qed.

Lemma wf_path4 : wf path4.
Proof. apply (bool_decide_unpack _). vm_compute. exact I. Qed.

Lemma degree_filter_keeps_by_input_degree_witness :
  nodes (degree_step path4 2) = ["B"; "C"]
  ∧ edges (degree_step path4 2) = [("B", "C", cites)].
Proof.
  destruct (degree_filter_keeps_by_input_degree path4 2 wf_path4 ltac:(lia))
    as (Hn & He & _).
  split.
  - rewrite Hn. reflexivity.
  - rewrite He. reflexivity.
Defined.

(** ** The substring filter *)

Lemma startswith_spec s p : startswith s p = true ↔ ∃ b, s = p +:+ b.
Proof.
  revert s. induction p as [|a p IH]; intros s.
  - split; [intros _; by exists s|by destruct s].
  - destruct s as [|b s]; simpl.
    + split; [done|]. intros [b' Hb']. discriminate.
    + rewrite andb_true_iff, IH, Ascii.eqb_eq. split.
      * intros [-> [b' ->]]. by exists b'.
      * intros [b' Hb']. injection Hb' as -> ->. split; [done|by exists b'].
Qed.

Lemma py_in_spec p s : py_in p s = true ↔ is_substring p s.
Proof.
  unfold is_substring. induction s as [|c s IH].
  - change (py_in p EmptyString) with (startswith EmptyString p || false).
    rewrite orb_false_r, startswith_spec. split.
    + intros [b Hb]. by exists EmptyString, b.
    + intros (a & b & Hab). destruct a; [by exists b|discriminate].
  - change (py_in p (String c s)) with (startswith (String c s) p || py_in p s).
    rewrite orb_true_iff, startswith_spec, IH. split.
    + intros [[b Hb]|(a & b & ->)].
      * by exists EmptyString, b.
      * by exists (String c a), b.
    + intros (a & b & Hab). destruct a as [|c' a].
      * left. by exists b.
      * right. injection Hab as -> ->. by exists a, b.
Qed.

Lemma no_match_spec q e : no_match (lower q) e = false ↔ matches q e.
Proof.
  unfold no_match, matches, label_or_empty, py_get_default.
  rewrite andb_false_iff, !negb_false_iff, !py_in_spec.
  destruct (nattrs e !! "label"); done.
Qed.

Lemma wf_entry_inj G e e' :
  NoDup (nodes G) → e ∈ G → e' ∈ G → nid e = nid e' → e = e'.
Proof.
  induction G as [|x G IH]; intros Hnd He He' Heq.
  - by apply elem_of_nil in He.
  - simpl in Hnd. apply NoDup_cons in Hnd as [Hx Hnd].
    apply elem_of_cons in He as [->|He], He' as [->|He']; [done| | |by apply IH].
    + destruct Hx. rewrite Heq. by apply list_elem_of_fmap_2.
    + destruct Hx. rewrite <- Heq. by apply list_elem_of_fmap_2.
Qed.


Lemma nat_lower_ascii c :
  nat_of_ascii (lower_ascii c) =
    if (65 <=? nat_of_ascii c) && (nat_of_ascii c <=? 90)
    then nat_of_ascii c + 32 else nat_of_ascii c.
Proof.
  unfold lower_ascii.
  destruct ((65 <=? nat_of_ascii c) && (nat_of_ascii c <=? 90)) eqn:Hup; [|done].
  apply andb_true_iff in Hup as [_ Hhi]. apply Nat.leb_le in Hhi.
  apply nat_ascii_embedding. lia.
Qed.

Lemma nat_of_ascii_inj a b : nat_of_ascii a = nat_of_ascii b → a = b.
Proof.
  intros Hab. rewrite <- (ascii_nat_embedding a), <- (ascii_nat_embedding b).
  by rewrite Hab.
Qed.

Lemma same_letter_lower a b : same_letter a b ↔ lower_ascii a = lower_ascii b.
Proof.
  unfold same_letter, pairs_with_lower. split.
  - intros Hab. apply nat_of_ascii_inj. rewrite !nat_lower_ascii.
    destruct Hab as [->|[[Ha Hb]|[Hb Ha]]]; [done| |].
    + rewrite Hb.
      destruct (Nat.leb_spec 65 (nat_of_ascii a)), (Nat.leb_spec (nat_of_ascii a) 90);
        destruct (Nat.leb_spec 65 (nat_of_ascii a + 32)),
                 (Nat.leb_spec (nat_of_ascii a + 32) 90); simpl; lia.
    + rewrite Ha.
      destruct (Nat.leb_spec 65 (nat_of_ascii b)), (Nat.leb_spec (nat_of_ascii b) 90);
        destruct (Nat.leb_spec 65 (nat_of_ascii b + 32)),
                 (Nat.leb_spec (nat_of_ascii b + 32) 90); simpl; lia.
  - intros Hab. apply (f_equal nat_of_ascii) in Hab.
    rewrite !nat_lower_ascii in Hab.
    destruct (Nat.leb_spec 65 (nat_of_ascii a)), (Nat.leb_spec (nat_of_ascii a) 90),
             (Nat.leb_spec 65 (nat_of_ascii b)), (Nat.leb_spec (nat_of_ascii b) 90);
      simpl in Hab;
      first [ left; apply nat_of_ascii_inj; lia
            | right; left; lia
            | right; right; lia ].
Qed.

Lemma same_text_lower s t : same_text s t ↔ lower s = lower t.
Proof.
  split.
  - induction 1 as [|a b s t Hab _ IH]; [done|].
    apply same_letter_lower in Hab.
    change (String (lower_ascii a) (lower s) = String (lower_ascii b) (lower t)).
    by rewrite Hab, IH.
  - revert t. induction s as [|a s IH]; intros [|b t] Hst; try discriminate.
    + constructor.
    + change (String (lower_ascii a) (lower s) = String (lower_ascii b) (lower t)) in Hst.
      injection Hst as Hab Hst. constructor; [by apply same_letter_lower|by apply IH].
Qed.

Lemma lower_app a b : lower (a +:+ b) = lower a +:+ lower b.
Proof. induction a as [|c a IH]; simpl; [done|]. by rewrite IH. Qed.

Lemma lower_split s x y :
  lower s = x +:+ y → ∃ s1 s2, s = s1 +:+ s2 ∧ lower s1 = x ∧ lower s2 = y.
Proof.
  revert s. induction x as [|c x IH]; intros s Hs.
  - by exists EmptyString, s.
  - destruct s as [|a s]; [discriminate|].
    change (String (lower_ascii a) (lower s) = String c (x +:+ y)) in Hs.
    injection Hs as Ha Hs. destruct (IH s Hs) as (s1 & s2 & -> & H1 & H2).
    exists (String a s1), s2. split; [done|]. split; [|done].
    change (String (lower_ascii a) (lower s1) = String c x). by rewrite Ha, H1.
Qed.

Lemma occurs_caseless_lower q s :
  occurs_caseless q s ↔ is_substring (lower q) (lower s).
Proof.
  unfold occurs_caseless, is_substring. split.
  - intros (a & m & b & -> & Hqm). apply same_text_lower in Hqm.
    exists (lower a), (lower b). by rewrite !lower_app, Hqm.
  - intros (a' & b' & Hs).
    destruct (lower_split s a' _ Hs) as (a & r & -> & _ & Hr).
    destruct (lower_split r (lower q) b' Hr) as (m & b & -> & Hm & _).
    exists a, m, b. split; [done|]. by apply same_text_lower.
Qed.




Lemma wf_people : wf people.
Proof. apply (bool_decide_unpack _). vm_compute. exact I. Qed.


(** ** Connected components *)

Lemma connected_sym G u v : connected G u v → connected G v u.
Proof.
  intros Huv. induction Huv as [|u w v Huw _ IH]; [constructor|].
  eapply rtc_r; [exact IH|]. destruct Huw; [by right|by left].
Qed.

Lemma connected_node G u v : wf G → connected G u v → u ∈ nodes G → v ∈ nodes G.
Proof.
  intros Hwf Huv. induction Huv as [|u w v Huw _ IH]; [done|].
  intros Hu. apply IH. destruct Huw as [Hw|Hw].
  - by eapply wf_neighbors_nodes.
  - unfold neighbors in Hw. apply list_elem_of_fmap in Hw as ([u' d] & -> & Hud).
    by eapply adj_elem_of_node.
Qed.

(** A set that holds the neighbours of each of its nodes holds everything
    connected to them. *)
Lemma closed_connected G (c : pyset) u v :
  wf G → (∀ x, x ∈ c → ∀ w, w ∈ neighbors G x → w ∈ c) →
  connected G u v → u ∈ c → v ∈ c.
Proof.
  intros Hwf Hclosed Huv. induction Huv as [|u w v Huw _ IH]; [done|].
  intros Hu. apply IH. destruct Huw as [Hw|Hw].
  - by apply (Hclosed u).
  - apply (Hclosed u); [done|]. by apply wf_neighbors_sym.
Qed.

Lemma bfs_visit_seen (seen next : list string) w :
  w ∈ seen → bfs_visit (seen, next) w = (seen, next).
Proof. intros Hw. unfold bfs_visit. simpl. by rewrite decide_True. Qed.

Lemma bfs_visit_new (seen next : list string) w :
  w ∉ seen → bfs_visit (seen, next) w = (seen ++ [w], next ++ [w]).
Proof. intros Hw. unfold bfs_visit. simpl. by rewrite decide_False. Qed.

Lemma bfs_visit_fold (ws : list string) (seen next : list string) :
  ∃ added,
    (foldl bfs_visit (seen, next) ws).1 = seen ++ added
    ∧ (foldl bfs_visit (seen, next) ws).2 = next ++ added
    ∧ (NoDup seen → NoDup (seen ++ added))
    ∧ (∀ x, x ∈ added ↔ (x ∉ seen) ∧ x ∈ ws).
Proof.
  revert seen next. induction ws as [|w ws IH]; intros seen next; simpl.
  - exists []. rewrite !app_nil_r. split; [done|]. split; [done|].
    split; [done|]. intros x. rewrite !elem_of_nil. tauto.
  - destruct (decide (w ∈ seen)) as [Hw|Hw].
    + rewrite bfs_visit_seen by done.
      destruct (IH seen next) as (added & H1 & H2 & Hnd & Hmem).
      exists added. split; [done|]. split; [done|]. split; [done|].
      intros x. rewrite Hmem, elem_of_cons. split.
      * intros [Hx Hxs]. split; [done|by right].
      * intros [Hx [->|Hxs]]; [done|by split].
    + rewrite bfs_visit_new by done.
      destruct (IH (seen ++ [w]) (next ++ [w])) as (added & H1 & H2 & Hnd & Hmem).
      exists (w :: added). rewrite H1, H2, <- !app_assoc. simpl.
      split; [done|]. split; [done|]. split.
      * intros Hs. rewrite cons_middle, app_assoc. apply Hnd.
        apply NoDup_app. split; [done|]. split; [|apply NoDup_singleton].
        intros y Hy Hyw. apply list_elem_of_singleton in Hyw as ->. done.
      * intros x. rewrite !elem_of_cons, Hmem, elem_of_app, list_elem_of_singleton.
        split.
        -- intros [->|[Hx Hxs]]; [tauto|tauto].
        -- intros [Hx [->|Hxs]]; [by left|].
           destruct (decide (x = w)) as [->|Hne]; [by left|right; tauto].
Qed.

Lemma bfs_level_fold G (level : list string) (seen next : list string) :
  ∃ added,
    (foldl (λ st v, foldl bfs_visit st (neighbors G v)) (seen, next) level).1
      = seen ++ added
    ∧ (foldl (λ st v, foldl bfs_visit st (neighbors G v)) (seen, next) level).2
      = next ++ added
    ∧ (NoDup seen → NoDup (seen ++ added))
    ∧ (∀ x, x ∈ added ↔ (x ∉ seen) ∧ ∃ v, v ∈ level ∧ x ∈ neighbors G v).
Proof.
  revert seen next. induction level as [|v level IH]; intros seen next; simpl.
  - exists []. rewrite !app_nil_r. split; [done|]. split; [done|].
    split; [done|]. intros x. rewrite elem_of_nil. split; [done|].
    intros [_ (v & Hv & _)]. by apply elem_of_nil in Hv.
  - destruct (bfs_visit_fold (neighbors G v) seen next)
      as (a1 & H1 & H2 & Hnd1 & Hmem1).
    destruct (foldl bfs_visit (seen, next) (neighbors G v)) as [s1 n1].
    simpl in H1, H2. subst s1 n1.
    destruct (IH (seen ++ a1) (next ++ a1)) as (a2 & H3 & H4 & Hnd2 & Hmem2).
    exists (a1 ++ a2). rewrite H3, H4, <- !app_assoc.
    split; [done|]. split; [done|]. split.
    + intros Hs. rewrite app_assoc. auto.
    + intros x. rewrite elem_of_app, Hmem1, Hmem2, elem_of_app. split.
      * intros [[Hx Hxv]|[Hx (u & Hu & Hxu)]].
        -- split; [done|]. exists v. split; [by left|done].
        -- split; [tauto|]. exists u. split; [by right|done].
      * intros [Hx (u & Hu & Hxu)].
        apply elem_of_cons in Hu as [->|Hu]; [by left|].
        destruct (decide (x ∈ a1)) as [Ha|Ha].
        -- left. by apply Hmem1.
        -- right. split; [tauto|]. by exists u.
Qed.

Lemma bfs_level_spec G seen level :
  (bfs_level G seen level).1 = seen ++ (bfs_level G seen level).2
  ∧ (NoDup seen → NoDup (bfs_level G seen level).1)
  ∧ (∀ x, x ∈ (bfs_level G seen level).2 ↔
          (x ∉ seen) ∧ ∃ v, v ∈ level ∧ x ∈ neighbors G v).
Proof.
  unfold bfs_level.
  destruct (bfs_level_fold G level seen []) as (added & H1 & H2 & Hnd & Hmem).
  rewrite H1, H2. simpl. split; [done|]. split; [done|done].
Qed.

(** The level loop of [_plain_bfs] ends within the fuel it is given, and
    returns the set of nodes connected to the source. *)
Lemma bfs_loop_spec G s fuel seen frontier :
  wf G → s ∈ seen → NoDup seen →
  (∀ x, x ∈ frontier → x ∈ seen) →
  (∀ x, x ∈ seen → x ∈ nodes G) →
  (∀ x, x ∈ seen → connected G s x) →
  (∀ u, u ∈ seen → u ∉ frontier → ∀ w, w ∈ neighbors G u → w ∈ seen) →
  length G + length frontier ≤ fuel + length seen →
  ∃ c, bfs_loop G fuel seen frontier = Some c
       ∧ NoDup c ∧ s ∈ c
       ∧ (∀ x, x ∈ c → x ∈ nodes G)
       ∧ (∀ x, x ∈ c → connected G s x)
       ∧ (∀ u, u ∈ c → ∀ w, w ∈ neighbors G u → w ∈ c).
Proof.
  intros Hwf. revert seen frontier.
  induction fuel as [|fuel IH];
    intros seen frontier Hs Hnd Hfront Hnodes Hconn Hclosed Hlen.
  - destruct frontier as [|x frontier].
    + exists seen. simpl. repeat split; try done.
      intros u Hu w Hw. apply (Hclosed u); [done| |done]. apply not_elem_of_nil.
    + exfalso. assert (length seen ≤ length (nodes G)) as Hle
        by by apply NoDup_subseteq_length.
      unfold nodes in Hle. rewrite length_fmap in Hle. simpl in Hlen. lia.
  - destruct frontier as [|x frontier].
    + exists seen. simpl. repeat split; try done.
      intros u Hu w Hw. apply (Hclosed u); [done| |done]. apply not_elem_of_nil.
    + simpl.
      destruct (bfs_level_spec G seen (x :: frontier)) as (Hseen' & Hnd' & Hnext).
      set (st := bfs_level G seen (x :: frontier)) in *.
      assert (Hin' : ∀ y, y ∈ st.1 ↔ y ∈ seen ∨ y ∈ st.2).
      { intros y. by rewrite Hseen', elem_of_app. }
      apply IH.
      * apply Hin'. by left.
      * by apply Hnd'.
      * intros y Hy. apply Hin'. by right.
      * intros y Hy. apply Hin' in Hy as [Hy|Hy]; [by apply Hnodes|].
        apply Hnext in Hy as [_ (v & Hv & Hyv)]. by eapply wf_neighbors_nodes.
      * intros y Hy. apply Hin' in Hy as [Hy|Hy]; [by apply Hconn|].
        apply Hnext in Hy as [_ (v & Hv & Hyv)].
        eapply rtc_r; [apply Hconn, Hfront, Hv|]. by left.
      * intros u Hu Hunext w Hw. apply Hin'.
        apply Hin' in Hu as [Hu|Hu]; [|done].
        destruct (decide (w ∈ seen)) as [Hws|Hws]; [by left|].
        destruct (decide (u ∈ x :: frontier)) as [Huf|Huf].
        -- right. apply Hnext. split; [done|]. by exists u.
        -- left. by apply (Hclosed u).
      * rewrite Hseen', length_app. simpl in Hlen. lia.
Qed.

Lemma plain_bfs_spec G s :
  wf G → s ∈ nodes G →
  ∃ c, _plain_bfs G s = Some c
       ∧ NoDup c ∧ s ∈ c
       ∧ (∀ v, v ∈ c ↔ connected G s v).
Proof.
  intros Hwf Hs. unfold _plain_bfs, number_of_nodes.
  destruct (bfs_loop_spec G s (length G) [s] [s] Hwf)
    as (c & Hc & Hnd & Hsc & Hnodes & Hconn & Hclosed).
  - by left.
  - apply NoDup_singleton.
  - done.
  - intros x Hx. by apply list_elem_of_singleton in Hx as ->.
  - intros x Hx. apply list_elem_of_singleton in Hx as ->. constructor.
  - intros u Hu Hnu. done.
  - simpl. lia.
  - exists c. split; [done|]. split; [done|]. split; [done|].
    intros v. split; [by apply Hconn|].
    intros Hv. by apply (closed_connected G c s v).
Qed.

(** [connected_components] returns, and what it returns are connected
    components that cover every node it was asked about. *)
Lemma cc_loop_spec G seen vs :
  wf G → (∀ v, v ∈ vs → v ∈ nodes G) →
  ∃ comps, cc_loop G seen vs = Some comps
           ∧ (∀ c, c ∈ comps → NoDup c ∧ is_component G c)
           ∧ (∀ v, v ∈ vs → v ∈ seen ∨ ∃ c, c ∈ comps ∧ v ∈ c).
Proof.
  intros Hwf. revert seen. induction vs as [|v vs IH]; intros seen Hvs.
  - exists []. simpl. split; [done|]. split.
    + intros c Hc. by apply elem_of_nil in Hc.
    + intros v Hv. by apply elem_of_nil in Hv.
  - simpl. destruct (decide (v ∈ seen)) as [Hv|Hv].
    + destruct (IH seen) as (comps & Hcc & Hcomp & Hcover).
      { intros w Hw. apply Hvs. by right. }
      exists comps. split; [done|]. split; [done|].
      intros w Hw. apply elem_of_cons in Hw as [->|Hw]; [by left|auto].
    + destruct (plain_bfs_spec G v Hwf) as (c & Hc & Hnd & Hvc & Hmem).
      { apply Hvs. by left. }
      destruct (IH (set_update seen c)) as (comps & Hcc & Hcomp & Hcover).
      { intros w Hw. apply Hvs. by right. }
      exists (c :: comps). rewrite Hc. simpl. rewrite Hcc. simpl.
      split; [done|]. split.
      * intros c' Hc'. apply elem_of_cons in Hc' as [->|Hc']; [|auto].
        split; [done|]. exists v. split; [|done]. apply Hvs. by left.
      * intros w Hw. apply elem_of_cons in Hw as [->|Hw].
        -- right. exists c. split; [by left|done].
        -- destruct (Hcover w Hw) as [Hws|(c' & Hc' & Hwc')].
           ++ apply elem_of_set_update in Hws as [Hws|Hws]; [by left|].
              right. exists c. split; [by left|done].
           ++ right. exists c'. split; [by right|done].
Qed.

Lemma connected_components_spec G :
  wf G →
  ∃ comps, connected_components G = Some comps
           ∧ (∀ c, c ∈ comps → NoDup c ∧ is_component G c)
           ∧ (∀ v, v ∈ nodes G → ∃ c, c ∈ comps ∧ v ∈ c).
Proof.
  intros Hwf. unfold connected_components.
  destruct (cc_loop_spec G [] (nodes G) Hwf) as (comps & Hcc & Hcomp & Hcover);
    [done|].
  exists comps. split; [done|]. split; [done|].
  intros v Hv. destruct (Hcover v Hv) as [Hnil|Hc]; [|done].
  by apply elem_of_nil in Hnil.
Qed.

Lemma is_component_nodes G c v : wf G → is_component G c → v ∈ c → v ∈ nodes G.
Proof.
  intros Hwf (s & Hs & Hmem) Hv. apply (connected_node G s v); [done| |done].
  by apply Hmem.
Qed.

Lemma is_component_connected G c u v :
  is_component G c → connected G u v → u ∈ c → v ∈ c.
Proof.
  intros (s & Hs & Hmem) Huv Hu. apply Hmem.
  etrans; [by apply Hmem|done].
Qed.

(** ** Sorting by size and the greedy choice *)

Lemma insert_by_len_Permutation c l : insert_by_len c l ≡ₚ c :: l.
Proof.
  induction l as [|x l IH]; simpl; [done|].
  destruct (decide (length x ≤ length c)); [done|].
  rewrite IH. apply Permutation_swap.
Qed.

Lemma insert_by_len_sorted c l :
  StronglySorted len_ge l → StronglySorted len_ge (insert_by_len c l).
Proof.
  induction l as [|x l IH]; intros Hl; simpl.
  - repeat constructor.
  - apply StronglySorted_inv in Hl as [Hl Hx].
    destruct (decide (length x ≤ length c)) as [Hle|Hgt].
    + constructor; [by constructor|]. constructor; [done|].
      rewrite Forall_forall in Hx |- *. intros y Hy.
      specialize (Hx y Hy). unfold len_ge in *. lia.
    + constructor; [by apply IH|].
      rewrite insert_by_len_Permutation. constructor; [|done].
      unfold len_ge. lia.
Qed.

Lemma sorted_by_len_desc_Permutation l : sorted_by_len_desc l ≡ₚ l.
Proof.
  induction l as [|c l IH]; simpl; [done|].
  by rewrite insert_by_len_Permutation, IH.
Qed.

Lemma sorted_by_len_desc_sorted l : StronglySorted len_ge (sorted_by_len_desc l).
Proof.
  induction l as [|c l IH]; simpl; [constructor|].
  by apply insert_by_len_sorted.
Qed.

Lemma length_set_add s x : length (set_add s x) ≤ S (length s).
Proof.
  unfold set_add. destruct (decide (x ∈ s)); [lia|].
  rewrite length_app. simpl. lia.
Qed.

Lemma length_set_update s l : length (set_update s l) ≤ length s + length l.
Proof.
  unfold set_update. revert s. induction l as [|x l IH]; intros s; simpl; [lia|].
  specialize (IH (set_add s x)). pose proof (length_set_add s x). lia.
Qed.

(** The greedy loop accepts a prefix of the components it is given and stops
    at the first one that would overflow. *)
Lemma greedy_keep_spec max_nodes keep comps :
  ∃ k, k ≤ length comps
       ∧ (∀ v, v ∈ greedy_keep max_nodes keep comps ↔
               v ∈ keep ∨ ∃ c, c ∈ take k comps ∧ v ∈ c)
       ∧ (k = length comps ∨
          ∃ c, comps !! k = Some c
               ∧ (max_nodes < Z.of_nat (length (greedy_keep max_nodes keep comps))
                              + Z.of_nat (length c))%Z)
       ∧ (NoDup keep → NoDup (greedy_keep max_nodes keep comps))
       ∧ ((Z.of_nat (length keep) ≤ max_nodes)%Z →
          (Z.of_nat (length (greedy_keep max_nodes keep comps)) ≤ max_nodes)%Z).
Proof.
  revert keep. induction comps as [|c comps IH]; intros keep; simpl.
  - exists 0. split; [done|]. split; [|split; [by left|done]].
    intros v. split; [by left|]. intros [Hv|(c & Hc & _)]; [done|].
    by apply elem_of_nil in Hc.
  - destruct (decide (max_nodes < Z.of_nat (length keep) + Z.of_nat (length c))%Z)
      as [Hover|Hfit].
    + exists 0. split; [lia|]. split; [|split; [|done]].
      * intros v. split; [by left|]. intros [Hv|(c' & Hc' & _)]; [done|].
        by apply elem_of_nil in Hc'.
      * right. by exists c.
    + destruct (IH (set_update keep c)) as (k & Hk & Hmem & Hstop & Hnd & Hlen).
      exists (S k). split; [lia|]. split; [|split; [|split]].
      * intros v. rewrite Hmem, elem_of_set_update. simpl. split.
        -- intros [[Hv|Hv]|(c' & Hc' & Hv)].
           ++ by left.
           ++ right. exists c. split; [by left|done].
           ++ right. exists c'. split; [by right|done].
        -- intros [Hv|(c' & Hc' & Hv)]; [by left; left|].
           apply elem_of_cons in Hc' as [->|Hc'].
           ++ left. by right.
           ++ right. by exists c'.
      * destruct Hstop as [->|Hstop]; [by left|by right].
      * intros Hkeep. by apply Hnd, NoDup_set_update.
      * intros Hkeep. apply Hlen.
        pose proof (length_set_update keep c). lia.
Qed.

(** ** Component-bounded downsampling *)

Lemma wf_substring_step G q : wf G → wf (substring_step G q).
Proof.
  intros Hwf. unfold substring_step. destruct q as [qs|]; [|done].
  destruct (truthy (VStr qs)); [|done]. by apply wf_restrict.
Qed.

Lemma wf_prefiltered G q min_degree : wf G → wf (prefiltered G q min_degree).
Proof. intros Hwf. by apply wf_substring_step, wf_degree_step. Qed.

(** [_filtered_graph] returns on every well-formed graph. *)
Lemma filtered_total G q min_degree max_nodes :
  wf G → ∃ R, _filtered_graph G q min_degree max_nodes = Some R.
Proof.
  intros Hwf. unfold _filtered_graph, downsample_step.
  destruct (decide _); [|by eexists].
  destruct (connected_components_spec (prefiltered G q min_degree))
    as (comps & Hcc & _); [by apply wf_prefiltered|].
  unfold prefiltered in Hcc. rewrite Hcc. by eexists.
Qed.

(** C1. When more than [max_nodes] nodes reach the downsampling step,
    [_filtered_graph] returns the subgraph induced by a keep-set built from
    the connected components of the graph at that step: the components are
    taken larger first and a prefix of them is accepted, up to the first one
    that would push the count over [max_nodes].  Hence connected nodes are
    kept together or dropped together, and at most [max_nodes] nodes are
    kept (fewer when the next component does not fit). *)
Theorem downsample_keeps_whole_components (G : Graph) (q : option string)
    (min_degree max_nodes : Z) :
  wf G → (1 ≤ max_nodes)%Z →
  (max_nodes < Z.of_nat (number_of_nodes (prefiltered G q min_degree)))%Z →
  ∃ comps k R,
    connected_components (prefiltered G q min_degree) = Some comps
    ∧ _filtered_graph G q min_degree max_nodes = Some R
    ∧ (∀ c, c ∈ comps → is_component (prefiltered G q min_degree) c)
    ∧ (∀ v, v ∈ nodes (prefiltered G q min_degree) → ∃ c, c ∈ comps ∧ v ∈ c)
    ∧ sorted_by_len_desc comps ≡ₚ comps
    ∧ StronglySorted len_ge (sorted_by_len_desc comps)
    ∧ k ≤ length comps
    ∧ (∀ v, v ∈ nodes R ↔
            ∃ c, c ∈ take k (sorted_by_len_desc comps) ∧ v ∈ c)
    ∧ (k = length comps ∨
       ∃ c, sorted_by_len_desc comps !! k = Some c
            ∧ (max_nodes < Z.of_nat (length (nodes R)) + Z.of_nat (length c))%Z)
    ∧ (∀ u v d, has_edge R u v d ↔
                has_edge (prefiltered G q min_degree) u v d
                ∧ u ∈ nodes R ∧ v ∈ nodes R)
    ∧ (∀ u v, connected (prefiltered G q min_degree) u v →
              (u ∈ nodes R ↔ v ∈ nodes R))
    ∧ (Z.of_nat (length (nodes R)) ≤ max_nodes)%Z.
Proof.
  intros Hwf Hmax Hmany.
  pose proof (wf_prefiltered G q min_degree Hwf) as HwfH.
  set (H := prefiltered G q min_degree) in *.
  destruct (connected_components_spec H HwfH) as (comps & Hcc & Hcomp & Hcover).
  pose proof (sorted_by_len_desc_Permutation comps) as Hperm.
  set (sorted := sorted_by_len_desc comps) in *.
  destruct (greedy_keep_spec max_nodes [] sorted)
    as (k & Hk & Hmem & Hstop & Hnd & Hlen).
  set (keep := greedy_keep max_nodes [] sorted) in *.
  assert (Hk_comp : ∀ c, c ∈ take k sorted → NoDup c ∧ is_component H c).
  { intros c Hc. apply Hcomp. rewrite <- Hperm.
    by apply (subseteq_take k). }
  assert (Hkeep : ∀ v, v ∈ keep ↔ ∃ c, c ∈ take k sorted ∧ v ∈ c).
  { intros v. rewrite Hmem. split; [|by right].
    intros [Hv|Hv]; [by apply elem_of_nil in Hv|done]. }
  assert (Hkeep_nodes : ∀ v, v ∈ keep → v ∈ nodes H).
  { intros v Hv. apply Hkeep in Hv as (c & Hc & Hv).
    apply (is_component_nodes H c); [done| |done]. by apply Hk_comp. }
  assert (Hkeep_nd : NoDup keep) by (apply Hnd; constructor).
  assert (Hnodes : ∀ v, v ∈ nodes (subgraph H keep) ↔ v ∈ keep).
  { intros v. rewrite elem_of_nodes_subgraph. split; [tauto|]. auto. }
  assert (Hcount : length (nodes (subgraph H keep)) = length keep)
    by by apply length_nodes_subgraph.
  assert (Hclosed : ∀ u v, connected H u v → u ∈ keep → v ∈ keep).
  { intros u v Huv Hu. apply Hkeep in Hu as (c & Hc & Hu). apply Hkeep.
    exists c. split; [done|].
    apply (is_component_connected H c u v); [by apply Hk_comp|done|done]. }
  exists comps, k, (subgraph H keep).
  split; [done|]. split.
  { unfold _filtered_graph, downsample_step. fold (prefiltered G q min_degree).
    fold H. rewrite decide_True by (split; lia). rewrite Hcc. done. }
  split; [intros c Hc; by apply Hcomp|]. split; [done|]. split; [done|].
  split; [apply sorted_by_len_desc_sorted|]. split.
  { rewrite <- (Permutation_length Hperm). done. }
  split; [intros v; by rewrite Hnodes|]. split.
  { destruct Hstop as [->|(c & Hc & Hover)].
    - left. by rewrite (Permutation_length Hperm).
    - right. exists c. split; [done|]. by rewrite Hcount. }
  split; [intros u v d; by apply has_edge_subgraph_nodes|]. split.
  { intros u v Huv. rewrite !Hnodes. split.
    - by apply Hclosed.
    - apply Hclosed. by apply connected_sym. }
  rewrite Hcount. apply Hlen. simpl. lia.
Qed.

Lemma wf_five_and_three : wf five_and_three.
Proof. apply (bool_decide_unpack _). vm_compute. exact I. Qed.

Lemma downsample_keeps_whole_components_witness :
  ∃ R, _filtered_graph five_and_three None 0 6 = Some R
       ∧ nodes R = ["a1"; "a2"; "a3"; "a4"; "a5"]
       ∧ (∀ u v, connected (prefiltered five_and_three None 0) u v →
                 (u ∈ nodes R ↔ v ∈ nodes R))
       ∧ (Z.of_nat (length (nodes R)) < 6)%Z.
Proof.
  destruct (downsample_keeps_whole_components five_and_three None 0 6)
    as (comps & k & R & _ & HR & _ & _ & _ & _ & _ & _ & _ & _ & Hconn & _).
  - exact wf_five_and_three.
  - lia.
  - vm_compute. reflexivity.
  - exists R. split; [exact HR|].
    assert (HR' : _filtered_graph five_and_three None 0 6
                  = Some (subgraph five_and_three ["a1"; "a2"; "a3"; "a4"; "a5"]))
      by (vm_compute; reflexivity).
    rewrite HR' in HR. injection HR as <-.
    split; [vm_compute; reflexivity|]. split; [exact Hconn|].
    vm_compute. reflexivity.
Defined.

(** ** The identity case of the filter pipeline *)

(** C9. With no query, [min_degree = 0] and [max_nodes] at least the number
    of nodes, [_filtered_graph] hands back the graph it was given: same
    nodes, same edges. *)
Theorem filtered_noop (G : Graph) (max_nodes : Z) :
  (Z.of_nat (number_of_nodes G) ≤ max_nodes)%Z →
  ∃ H, _filtered_graph G None 0 max_nodes = Some H
       ∧ nodes H = nodes G ∧ edges H = edges G ∧ H = G.
Proof.
  intros Hmax. exists G. split; [|done].
  assert (Hd : degree_step G 0 = G).
  { unfold degree_step. rewrite decide_False by lia. done. }
  unfold _filtered_graph. rewrite Hd. simpl. unfold downsample_step.
  rewrite decide_False by (unfold number_of_nodes in *; lia). done.
Qed.

Lemma filtered_noop_witness :
  ∃ H, _filtered_graph path4 None 0 4 = Some H
       ∧ nodes H = nodes path4 ∧ edges H = edges path4 ∧ H = path4.
Proof. apply (filtered_noop path4 4). vm_compute. discriminate. Defined.

(** ** Ego expansion *)

Section EgoFacts.
Variable set_iter : pyset → list string.
Hypothesis set_iter_ok : set_order_ok set_iter.

Lemma elem_of_set_iter s x : NoDup s → x ∈ set_iter s ↔ x ∈ s.
Proof. intros Hs. by rewrite (set_iter_ok s Hs). Qed.

Lemma NoDup_set_iter s : NoDup s → NoDup (set_iter s).
Proof. intros Hs. by rewrite (set_iter_ok s Hs). Qed.

Lemma length_set_iter s : NoDup s → length (set_iter s) = length s.
Proof. intros Hs. by rewrite (set_iter_ok s Hs). Qed.

Lemma next_frontier_fold G (l : list string) acc v :
  v ∈ foldl (λ nxt u, set_update nxt (neighbors G u)) acc l ↔
    v ∈ acc ∨ ∃ u, u ∈ l ∧ v ∈ neighbors G u.
Proof.
  revert acc. induction l as [|x l IH]; intros acc; simpl.
  - split; [by left|]. intros [Hv|(u & Hu & _)]; [done|].
    by apply elem_of_nil in Hu.
  - rewrite IH, elem_of_set_update. split.
    + intros [[Hv|Hv]|(u & Hu & Hv)].
      * by left.
      * right. exists x. split; [by left|done].
      * right. exists u. split; [by right|done].
    + intros [Hv|(u & Hu & Hv)].
      * left. by left.
      * apply elem_of_cons in Hu as [->|Hu].
        -- left. by right.
        -- right. by exists u.
Qed.

Lemma NoDup_next_frontier_fold G (l : list string) acc :
  NoDup acc → NoDup (foldl (λ nxt u, set_update nxt (neighbors G u)) acc l).
Proof.
  revert acc. induction l as [|x l IH]; intros acc Hacc; simpl; [done|].
  apply IH. by apply NoDup_set_update.
Qed.

Lemma elem_of_next_frontier G frontier v :
  NoDup frontier →
  v ∈ next_frontier set_iter G frontier ↔ ∃ u, u ∈ frontier ∧ v ∈ neighbors G u.
Proof.
  intros Hf. unfold next_frontier. rewrite next_frontier_fold. split.
  - intros [Hv|(u & Hu & Hv)]; [by apply elem_of_nil in Hv|].
    exists u. split; [by apply elem_of_set_iter|done].
  - intros (u & Hu & Hv). right. exists u.
    split; [by apply elem_of_set_iter|done].
Qed.

Lemma NoDup_next_frontier G frontier : NoDup (next_frontier set_iter G frontier).
Proof. apply NoDup_next_frontier_fold. constructor. Qed.

(** The hop loop, started after [k] hops: it stops after some [j] hops, with
    exactly the nodes within [j] hops of the center in [visited], and it
    stops before the last hop only when the cap is reached. *)
Lemma ego_loop_spec G c hops max_nodes k visited frontier :
  NoDup visited → NoDup frontier →
  (∀ v, v ∈ frontier ↔ walk G c k v) →
  (∀ v, v ∈ visited ↔ within G c k v) →
  NoDup (ego_loop set_iter G hops max_nodes visited frontier)
  ∧ ∃ j, k ≤ j ≤ k + hops
         ∧ (∀ v, v ∈ ego_loop set_iter G hops max_nodes visited frontier
                 ↔ within G c j v)
         ∧ (j < k + hops →
            (max_nodes ≤ Z.of_nat (length
               (ego_loop set_iter G hops max_nodes visited frontier)))%Z).
Proof.
  revert k visited frontier.
  induction hops as [|hops IH]; intros k visited frontier Hv Hf Hfront Hvis.
  - simpl. split; [done|]. exists k. split; [lia|]. split; [done|lia].
  - simpl.
    set (nxt := next_frontier set_iter G frontier).
    set (visited' := set_update visited (set_iter nxt)).
    assert (Hnxt_nd : NoDup nxt) by apply NoDup_next_frontier.
    assert (Hv' : NoDup visited') by by apply NoDup_set_update.
    assert (Hnxt : ∀ v, v ∈ nxt ↔ walk G c (S k) v).
    { intros v. unfold nxt. rewrite elem_of_next_frontier by done.
      rewrite walk_S_iff. split; intros (u & Hu & Hvu); exists u;
        (split; [by apply Hfront|done]). }
    assert (Hvis' : ∀ v, v ∈ visited' ↔ within G c (S k) v).
    { intros v. unfold visited'.
      rewrite elem_of_set_update, elem_of_set_iter, within_S by done.
      by rewrite Hvis, Hnxt. }
    destruct (decide (max_nodes ≤ Z.of_nat (length visited'))%Z) as [Hcap|Hcap].
    + split; [done|]. exists (S k). split; [lia|]. split; [done|]. done.
    + destruct (IH (S k) visited' nxt Hv' Hnxt_nd Hnxt Hvis')
        as (Hnd & j & Hj & Hmem & Hstop).
      split; [done|]. exists j. split; [lia|]. split; [done|].
      intros Hlt. apply Hstop. lia.
Qed.

(** The visited set of a whole traversal from [center]. *)
Lemma ego_visited_spec G center hops max_nodes :
  NoDup (ego_loop set_iter G hops max_nodes [center] [center])
  ∧ ∃ j, j ≤ hops
         ∧ (∀ v, v ∈ ego_loop set_iter G hops max_nodes [center] [center]
                 ↔ within G center j v)
         ∧ (j < hops →
            (max_nodes ≤ Z.of_nat (length
               (ego_loop set_iter G hops max_nodes [center] [center])))%Z).
Proof.
  destruct (ego_loop_spec G center hops max_nodes 0 [center] [center])
    as (Hnd & j & Hj & Hmem & Hstop).
  - apply NoDup_singleton.
  - apply NoDup_singleton.
  - intros v. rewrite list_elem_of_singleton. split.
    + intros ->. constructor.
    + intros Hw. by inversion Hw.
  - intros v. by rewrite list_elem_of_singleton, within_O.
  - split; [done|]. exists j. split; [lia|]. split; [done|].
    intros Hlt. apply Hstop. lia.
Qed.

(** With fewer than [max_nodes] nodes within [i] hops, the cap is not
    reached at hop [i]. *)
Lemma not_cap_reached_below G c i max_nodes (visited : pyset) :
  NoDup visited → (∀ v, v ∈ visited ↔ within G c i v) →
  (Z.of_nat (length visited) < max_nodes)%Z → ¬ cap_reached G c i max_nodes.
Proof.
  intros Hnd Hmem Hlt (l & Hl & Hin & Hlen).
  assert (length l ≤ length visited); [|lia].
  apply NoDup_subseteq_length; [done|]. intros x Hx. apply Hmem. by apply Hin.
Qed.

(** The hop at which the loop stops, started after [k] hops: it makes at
    least one hop when it may, and it runs past every hop at which the cap is
    not yet reached, so it stops at the first hop that reaches it (or at the
    last hop). *)
Lemma ego_loop_first_hop G c hops max_nodes k visited frontier :
  NoDup visited → NoDup frontier →
  (∀ v, v ∈ frontier ↔ walk G c k v) →
  (∀ v, v ∈ visited ↔ within G c k v) →
  ∃ j, k ≤ j ≤ k + hops
       ∧ (0 < hops → k < j)
       ∧ NoDup (ego_loop set_iter G hops max_nodes visited frontier)
       ∧ (∀ v, v ∈ ego_loop set_iter G hops max_nodes visited frontier
               ↔ within G c j v)
       ∧ (j < k + hops →
          (max_nodes ≤ Z.of_nat (length
             (ego_loop set_iter G hops max_nodes visited frontier)))%Z)
       ∧ (∀ i, k < i < j → ¬ cap_reached G c i max_nodes).
Proof.
  revert k visited frontier.
  induction hops as [|hops IH]; intros k visited frontier Hv Hf Hfront Hvis.
  - simpl. exists k. split; [lia|]. split; [lia|]. split; [done|].
    split; [done|]. split; [lia|]. intros i Hi. lia.
  - simpl.
    set (nxt := next_frontier set_iter G frontier).
    set (visited' := set_update visited (set_iter nxt)).
    assert (Hnxt_nd : NoDup nxt) by apply NoDup_next_frontier.
    assert (Hv' : NoDup visited') by by apply NoDup_set_update.
    assert (Hnxt : ∀ v, v ∈ nxt ↔ walk G c (S k) v).
    { intros v. unfold nxt. rewrite elem_of_next_frontier by done.
      rewrite walk_S_iff. split; intros (u & Hu & Hvu); exists u;
        (split; [by apply Hfront|done]). }
    assert (Hvis' : ∀ v, v ∈ visited' ↔ within G c (S k) v).
    { intros v. unfold visited'.
      rewrite elem_of_set_update, elem_of_set_iter, within_S by done.
      by rewrite Hvis, Hnxt. }
    destruct (decide (max_nodes ≤ Z.of_nat (length visited'))%Z) as [Hcap|Hcap].
    + exists (S k). split; [lia|]. split; [lia|]. split; [done|].
      split; [done|]. split; [done|]. intros i Hi. lia.
    + destruct (IH (S k) visited' nxt Hv' Hnxt_nd Hnxt Hvis')
        as (j & Hj & _ & Hnd & Hmem & Hstop & Hfirst).
      exists j. split; [lia|]. split; [lia|]. split; [done|].
      split; [done|]. split; [intros Hlt; apply Hstop; lia|].
      intros i Hi. destruct (decide (i = S k)) as [->|Hne].
      * apply (not_cap_reached_below G c (S k) max_nodes visited'); [done|done|lia].
      * apply Hfirst. lia.
Qed.

End EgoFacts.

(** C8. [_ego_subgraph] raises the 404 [HTTPException] exactly when the
    center is not a node of [G]; with the center present it returns a graph,
    whatever the traversal finds. *)
Theorem ego_not_found_iff_center_absent (set_iter : pyset → list string)
    (G : Graph) (center : string) (depth max_nodes : Z) :
  ((∃ detail, _ego_subgraph set_iter G center depth max_nodes
              = Raise (HTTPException 404 detail)) ↔ center ∉ nodes G)
  ∧ (center ∈ nodes G →
     ∃ H, _ego_subgraph set_iter G center depth max_nodes = Ok H).
Proof.
  unfold _ego_subgraph. destruct (decide (center ∈ nodes G)) as [Hc|Hc].
  - split; [|by eexists]. split; [intros [detail Hd]; discriminate|done].
  - split; [|done]. split; [done|]. intros _. by eexists.
Qed.

(** C3. When the cap is not reached, [_ego_subgraph] returns the subgraph
    induced by the nodes within [depth] hops of the center (the center
    included): its nodes are exactly those, and its edges are exactly the
    edges of [G] with both ends kept. *)
Theorem ego_returns_ball (set_iter : pyset → list string)
    (G : Graph) (center : string) (depth max_nodes : Z) :
  set_order_ok set_iter → wf G → center ∈ nodes G →
  ¬ cap_reached G center (Z.to_nat depth) max_nodes →
  ∃ H, _ego_subgraph set_iter G center depth max_nodes = Ok H
       ∧ (∀ v, v ∈ nodes H ↔ within G center (Z.to_nat depth) v)
       ∧ center ∈ nodes H
       ∧ (∀ u v d, has_edge H u v d ↔
                   has_edge G u v d ∧ u ∈ nodes H ∧ v ∈ nodes H).
Proof.
  intros Hiter Hwf Hc Hnocap. unfold _ego_subgraph.
  rewrite decide_True by done. eexists. split; [done|].
  destruct (ego_visited_spec set_iter Hiter G center (Z.to_nat depth) max_nodes)
    as (Hnd & j & Hj & Hmem & Hstop).
  set (R := ego_loop set_iter G (Z.to_nat depth) max_nodes [center] [center]) in *.
  assert (Hsmall : (Z.of_nat (length R) < max_nodes)%Z).
  { destruct (decide (max_nodes ≤ Z.of_nat (length R))%Z) as [Hge|]; [|lia].
    destruct Hnocap. exists R. split; [done|]. split; [|done].
    intros v Hv. apply (within_mono G center j); [done|]. by apply Hmem. }
  assert (j = Z.to_nat depth) as ->.
  { destruct (decide (j < Z.to_nat depth)) as [Hlt|Hge]; [|lia].
    apply Hstop in Hlt. lia. }
  assert (Hslice : py_slice_to max_nodes (set_iter R) = set_iter R).
  { unfold py_slice_to, slice_index. rewrite (length_set_iter set_iter) by done.
    rewrite decide_False by lia. apply take_ge.
    rewrite (length_set_iter set_iter) by done. lia. }
  rewrite Hslice.
  assert (Hnodes : ∀ v, v ∈ nodes (subgraph G (set_iter R))
                        ↔ within G center (Z.to_nat depth) v).
  { intros v. rewrite elem_of_nodes_subgraph.
    rewrite (elem_of_set_iter set_iter) by done. rewrite Hmem.
    split; [tauto|]. intros Hv. split; [by eapply within_node|done]. }
  split; [exact Hnodes|]. split.
  - apply Hnodes. exists 0. split; [lia|constructor].
  - intros u v d. by apply has_edge_subgraph_nodes.
Qed.

(** C2 fails as stated: with a set that happens to enumerate its elements
    last-inserted first, the traversal from ["B"] in [path4] visits
    [B, C, A] in this order, and truncation to two nodes keeps [A] and [C]:
    the center is dropped, so the result is no prefix of the discovery
    order. *)
Lemma ego_truncation_counterexample :
  set_order_ok reverse
  ∧ wf path4
  ∧ cap_reached path4 "B" 1 2
  ∧ take 2 (ego_loop reverse path4 1 2 ["B"] ["B"]) = ["B"; "C"]
  ∧ ∃ H, _ego_subgraph reverse path4 "B" 1 2 = Ok H
         ∧ nodes H = ["A"; "C"]
         ∧ "B" ∉ nodes H.
Proof.
  split; [intros s _; apply reverse_Permutation|].
  split; [exact wf_path4|]. split.
  - exists ["B"; "A"]. split; [by apply (bool_decide_unpack _)|].
    split; [|simpl; lia]. intros v Hv.
    apply elem_of_cons in Hv as [->|Hv].
    + exists 0. split; [lia|constructor].
    + apply list_elem_of_singleton in Hv as ->. exists 1. split; [lia|].
      apply (walk_S _ _ 0 "B"); [constructor|].
      by apply (bool_decide_unpack _).
  - split; [vm_compute; reflexivity|].
    eexists. split; [vm_compute; reflexivity|].
    split; [reflexivity|]. by apply (bool_decide_unpack _).
Qed.

(** C2, amended.  When the cap is reached, [_ego_subgraph] returns exactly
    [max_nodes] nodes, all of them taken from the nodes visited up to the hop
    [k] at which the cap is first reached: [k] is at most [depth], at least
    [max_nodes] nodes lie within [k] hops of the center, fewer than that lie
    within any earlier hop from the first on (the test for the cap comes at
    the end of a hop, so one hop is always made when [depth] allows one),
    and every node returned lies within [k] hops of the center.  The edges
    returned are the edges of [G] between the nodes returned. *)
Theorem ego_truncates_to_cap (set_iter : pyset → list string)
    (G : Graph) (center : string) (depth max_nodes : Z) :
  set_order_ok set_iter → wf G → center ∈ nodes G →
  (1 ≤ max_nodes)%Z →
  cap_reached G center (Z.to_nat depth) max_nodes →
  ∃ H k, _ego_subgraph set_iter G center depth max_nodes = Ok H
       ∧ k ≤ Z.to_nat depth
       ∧ (0 < Z.to_nat depth → 0 < k)
       ∧ cap_reached G center k max_nodes
       ∧ (∀ i, 0 < i < k → ¬ cap_reached G center i max_nodes)
       ∧ length (nodes H) = Z.to_nat max_nodes
       ∧ NoDup (nodes H)
       ∧ (∀ v, v ∈ nodes H → within G center k v)
       ∧ (∀ u v d, has_edge H u v d ↔
                   has_edge G u v d ∧ u ∈ nodes H ∧ v ∈ nodes H).
Proof.
  intros Hiter Hwf Hc Hmax (l & Hl & Hlin & Hlen). unfold _ego_subgraph.
  rewrite decide_True by done.
  destruct (ego_loop_first_hop set_iter Hiter G center (Z.to_nat depth) max_nodes
              0 [center] [center])
    as (j & Hj & Hhop & Hnd & Hmem & Hstop & Hfirst).
  { apply NoDup_singleton. }
  { apply NoDup_singleton. }
  { intros v. rewrite list_elem_of_singleton. split.
    - intros ->. constructor.
    - intros Hw. by inversion Hw. }
  { intros v. by rewrite list_elem_of_singleton, within_O. }
  set (R := ego_loop set_iter G (Z.to_nat depth) max_nodes [center] [center]) in *.
  assert (Hbig : (max_nodes ≤ Z.of_nat (length R))%Z).
  { destruct (decide (j < Z.to_nat depth)) as [Hlt|Hge]; [apply Hstop; lia|].
    assert (j = Z.to_nat depth) as -> by lia.
    assert (length l ≤ length R); [|lia].
    apply NoDup_subseteq_length; [done|]. intros x Hx. apply Hmem. by apply Hlin. }
  assert (Hslice : py_slice_to max_nodes (set_iter R)
                   = take (Z.to_nat max_nodes) (set_iter R)).
  { unfold py_slice_to, slice_index. rewrite decide_False by lia.
    rewrite (length_set_iter set_iter) by done. f_equal. lia. }
  rewrite Hslice.
  set (kept := take (Z.to_nat max_nodes) (set_iter R)).
  assert (Hkept_nd : NoDup kept).
  { eapply sublist_NoDup; [|apply sublist_take].
    by apply (NoDup_set_iter set_iter). }
  assert (Hkept_R : ∀ v, v ∈ kept → v ∈ R).
  { intros v Hv. apply (elem_of_set_iter set_iter Hiter R v Hnd).
    by apply (subseteq_take (Z.to_nat max_nodes)). }
  assert (Hkept_G : ∀ v, v ∈ kept → v ∈ nodes G).
  { intros v Hv. apply (within_node G center j); [done|done|].
    apply Hmem. by apply Hkept_R. }
  exists (subgraph G kept), j. split; [done|]. split; [lia|].
  split; [intros Hd; apply Hhop in Hd; lia|]. split.
  { exists R. split; [done|]. split; [|done]. intros v Hv. by apply Hmem. }
  split; [intros i Hi; apply Hfirst; lia|].
  split; [|split; [|split]].
  - rewrite length_nodes_subgraph by done. unfold kept.
    rewrite length_take, (length_set_iter set_iter) by done. lia.
  - destruct (wf_restrict (λ n, n ∈ kept) G Hwf) as [Hndk _]. exact Hndk.
  - intros v Hv. apply elem_of_nodes_subgraph in Hv as [_ Hv].
    apply Hmem. by apply Hkept_R.
  - intros u v d. by apply has_edge_subgraph_nodes.
Qed.

Lemma cap_reached_path4 : cap_reached path4 "B" 1 2.
Proof.
  exists ["B"; "A"]. split; [by apply (bool_decide_unpack _)|].
  split; [|simpl; lia]. intros v Hv.
  apply elem_of_cons in Hv as [->|Hv].
  - exists 0. split; [lia|constructor].
  - apply list_elem_of_singleton in Hv as ->. exists 1. split; [lia|].
    apply (walk_S _ _ 0 "B"); [constructor|].
    by apply (bool_decide_unpack _).
Qed.

Lemma ego_truncates_to_cap_witness :
  ∃ H k, _ego_subgraph reverse path4 "B" 1 2 = Ok H
       ∧ k ≤ Z.to_nat 1
       ∧ (0 < Z.to_nat 1 → 0 < k)
       ∧ cap_reached path4 "B" k 2
       ∧ (∀ i, 0 < i < k → ¬ cap_reached path4 "B" i 2)
       ∧ length (nodes H) = Z.to_nat 2
       ∧ NoDup (nodes H)
       ∧ (∀ v, v ∈ nodes H → within path4 "B" k v)
       ∧ (∀ u v d, has_edge H u v d ↔
                   has_edge path4 u v d ∧ u ∈ nodes H ∧ v ∈ nodes H).
Proof.
  apply (ego_truncates_to_cap reverse path4 "B" 1 2).
  - intros s _. apply reverse_Permutation.
  - exact wf_path4.
  - by apply (bool_decide_unpack _).
  - lia.
  - exact cap_reached_path4.
Defined.

Lemma ego_returns_ball_witness :
  ∃ H, _ego_subgraph id path4 "B" 1 10 = Ok H
       ∧ (∀ v, v ∈ nodes H ↔ within path4 "B" (Z.to_nat 1) v)
       ∧ "B" ∈ nodes H
       ∧ (∀ u v d, has_edge H u v d ↔
                   has_edge path4 u v d ∧ u ∈ nodes H ∧ v ∈ nodes H).
Proof.
  apply (ego_returns_ball id path4 "B" 1 10).
  - intros s _. done.
  - exact wf_path4.
  - by apply (bool_decide_unpack _).
  - intros (l & Hl & Hin & Hlen).
    assert (length l ≤ length (nodes path4)) as Hle.
    { apply NoDup_subseteq_length; [done|]. intros x Hx.
      apply (within_node path4 "B" (Z.to_nat 1)); [exact wf_path4| |by apply Hin].
      by apply (bool_decide_unpack _). }
    simpl in Hle. lia.
Defined.

(** ** Triplets *)

Lemma triplet_row_relation u v (d : attrs) :
  triplet_row (u, v, d) !! "relation" = Some (relation_or_label d).
Proof.
  unfold triplet_row. simpl. rewrite lookup_union_r.
  - rewrite lookup_insert_ne, lookup_insert_eq by done.
    unfold relation_or_label, py_or, py_get.
    destruct (d !! "relation") as [r|]; simpl; [done|].
    done.
  - apply map_lookup_filter_None_2. right. intros x _ [Hrel _]. done.
Qed.

Lemma triplet_row_extra u v (d : attrs) k :
  k ≠ "relation" → k ≠ "label" →
  triplet_row (u, v, d) !! k =
    match d !! k with
    | Some x => Some x
    | None =>
        (<["object" := VStr v]>
           (<["relation" := py_or (py_get d "relation") (py_get d "label")]>
              (<["subject" := VStr u]> (∅ : attrs)))) !! k
    end.
Proof.
  intros Hrel Hlab. unfold triplet_row. simpl.
  destruct (d !! k) as [x|] eqn:Hk.
  - apply lookup_union_Some_l. by apply map_lookup_filter_Some.
  - apply lookup_union_r. apply map_lookup_filter_None_2. by left.
Qed.

Lemma triplet_row_subject u v (d : attrs) :
  triplet_row (u, v, d) !! "subject" = Some (default (VStr u) (d !! "subject")).
Proof.
  rewrite triplet_row_extra by done. destruct (d !! "subject"); [done|].
  rewrite !lookup_insert_ne by done. apply lookup_insert_eq.
Qed.

Lemma triplet_row_object u v (d : attrs) :
  triplet_row (u, v, d) !! "object" = Some (default (VStr v) (d !! "object")).
Proof.
  rewrite triplet_row_extra by done. destruct (d !! "object"); [done|].
  apply lookup_insert_eq.
Qed.

(** C4 fails as stated: on [graph_empty_relation] the edge has a [relation]
    attribute (the empty string), yet the triplet's relation is the edge's
    [label]. *)
Lemma triplet_relation_counterexample :
  wf graph_empty_relation
  ∧ edges graph_empty_relation = [("A", "B", empty_relation)]
  ∧ relation_else_label empty_relation = VStr EmptyString
  ∧ ((λ r : attrs, r !! "relation") <$>
       _derive_triplets_from_edges graph_empty_relation) = [Some (VStr "x")].
Proof.
  split; [apply (bool_decide_unpack _); vm_compute; exact I|].
  repeat split; vm_compute; reflexivity.
Qed.

(** C4, amended.  [_derive_triplets_from_edges] yields one row per edge
    ([G.number_of_edges()] rows), in edge-iteration order, and every edge of
    [G] has its row.  The edge behind a row is an edge of [G]; the row's
    relation is the edge's [relation] attribute when that is present and
    truthy, otherwise its [label] attribute, otherwise [None]; the row's
    subject and object are the edge's ends, unless the edge carries an
    attribute of that very name.  The page reports the unpaginated number of
    rows and holds the rows from position [skip] up to [skip + limit]. *)
Theorem triplets_rows_and_page (G : Graph) (skip limit : Z) :
  wf G → (0 ≤ skip)%Z → (0 ≤ limit)%Z →
  length (_derive_triplets_from_edges G) = number_of_edges G
  ∧ length (_derive_triplets_from_edges G) = length (edges G)
  ∧ (∀ i u v d, edges G !! i = Some (u, v, d) →
       has_edge G u v d
       ∧ ∃ row, _derive_triplets_from_edges G !! i = Some row
                ∧ row !! "relation" = Some (relation_or_label d)
                ∧ row !! "subject" = Some (default (VStr u) (d !! "subject"))
                ∧ row !! "object" = Some (default (VStr v) (d !! "object")))
  ∧ (∀ u v d, has_edge G u v d →
       triplet_row (u, v, d) ∈ _derive_triplets_from_edges G
       ∨ triplet_row (v, u, d) ∈ _derive_triplets_from_edges G)
  ∧ count (get_triplets G skip limit) = Z.of_nat (number_of_edges G)
  ∧ items (get_triplets G skip limit) =
      take (Z.to_nat limit) (drop (Z.to_nat skip) (_derive_triplets_from_edges G)).
Proof.
  intros Hwf Hskip Hlimit.
  assert (Hlen : length (_derive_triplets_from_edges G) = length (edges G))
    by (unfold _derive_triplets_from_edges; apply length_fmap).
  split; [by rewrite Hlen, number_of_edges_edges|].
  split; [exact Hlen|]. split; [|split; [|split]].
  - intros i u v d Hi. split.
    + apply edges_has_edge; [done|]. by eapply list_elem_of_lookup_2.
    + exists (triplet_row (u, v, d)). split.
      * unfold _derive_triplets_from_edges. by rewrite list_lookup_fmap, Hi.
      * split; [apply triplet_row_relation|].
        split; [apply triplet_row_subject|apply triplet_row_object].
  - intros u v d Huv. unfold _derive_triplets_from_edges.
    destruct (has_edge_edges G u v d Hwf Huv) as [Hin|Hin];
      [left|right]; by apply list_elem_of_fmap_2.
  - simpl. by rewrite Hlen, number_of_edges_edges.
  - simpl. by apply py_slice_nonneg.
Qed.

Lemma triplets_rows_and_page_witness :
  count (get_triplets path4 1 1) = 3%Z
  ∧ (λ r : attrs, (r !! "subject", r !! "relation", r !! "object")) <$>
      items (get_triplets path4 1 1)
    = [(Some (VStr "B"), Some (VStr "cites"), Some (VStr "C"))].
Proof.
  destruct (triplets_rows_and_page path4 1 1 wf_path4 ltac:(lia) ltac:(lia))
    as (_ & _ & _ & _ & Hcount & Hitems).
  split.
  - rewrite Hcount. reflexivity.
  - rewrite Hitems. vm_compute. reflexivity.
Defined.

(** ** The node-link serializer *)

Lemma setdefault_lookup k v (d : attrs) :
  setdefault k v d !! k = Some (default v (d !! k)).
Proof.
  unfold setdefault. destruct (d !! k) eqn:Hk; simpl; [done|].
  apply lookup_insert_eq.
Qed.

Lemma setdefault_lookup_ne k k' v (d : attrs) :
  k ≠ k' → setdefault k v d !! k' = d !! k'.
Proof.
  intros Hne. unfold setdefault. destruct (d !! k); [done|].
  by apply lookup_insert_ne.
Qed.

Lemma normalize_edge_id i (e : attrs) :
  normalize_edge i e !! "id" = Some (default (edge_id i) (e !! "id")).
Proof.
  unfold normalize_edge.
  destruct (setdefault "id" _ e !! "relation").
  - rewrite setdefault_lookup_ne by done. apply setdefault_lookup.
  - apply setdefault_lookup.
Qed.

Lemma normalize_edge_label i (e : attrs) :
  normalize_edge i e !! "label" =
    match e !! "label" with
    | Some l => Some l
    | None => e !! "relation"
    end.
Proof.
  unfold normalize_edge. rewrite (setdefault_lookup_ne "id" "relation") by done.
  destruct (e !! "relation") as [r|].
  - rewrite setdefault_lookup, setdefault_lookup_ne by done.
    by destruct (e !! "label").
  - rewrite setdefault_lookup_ne by done. by destruct (e !! "label").
Qed.

Lemma link_record_lookup u v (d : attrs) k :
  k ≠ "source" → k ≠ "target" → link_record (u, v, d) !! k = d !! k.
Proof.
  intros Hs Ht. unfold link_record. simpl.
  rewrite !lookup_insert_ne by done. done.
Qed.

Lemma normalize_node_degree G x (a : attrs) :
  normalize_node G (<["id" := VStr x]> a) !! "degree" =
    Some (default (VInt (if decide (x ∈ nodes G)
                         then Z.of_nat (degree G x) else 0)) (a !! "degree")).
Proof.
  unfold normalize_node.
  rewrite (setdefault_lookup_ne "label" "id") by done.
  rewrite lookup_insert_eq, setdefault_lookup.
  rewrite setdefault_lookup_ne, lookup_insert_ne by done. done.
Qed.

Lemma normalize_node_label G x (a : attrs) :
  normalize_node G (<["id" := VStr x]> a) !! "label" =
    Some (default (VStr x) (a !! "label")).
Proof.
  unfold normalize_node.
  rewrite (setdefault_lookup_ne "label" "id") by done.
  rewrite lookup_insert_eq, setdefault_lookup_ne by done.
  rewrite setdefault_lookup, lookup_insert_ne by done.
  unfold py_get. by rewrite lookup_insert_eq.
Qed.

Lemma nl_nodes_lookup G i e :
  G !! i = Some e →
  nl_nodes (_nx_to_node_link G) !! i =
    Some (normalize_node G (<["id" := VStr (nid e)]> (nattrs e))).
Proof.
  intros Hi. simpl. unfold node_link_nodes.
  by rewrite !list_lookup_fmap, Hi.
Qed.

Lemma nl_edges_lookup G i e :
  edges G !! i = Some e →
  nl_edges (_nx_to_node_link G) !! i = Some (normalize_edge i (link_record e)).
Proof.
  intros Hi. simpl. unfold node_link_links.
  by rewrite list_lookup_imap, list_lookup_fmap, Hi.
Qed.

Lemma nl_lengths G :
  length (nl_nodes (_nx_to_node_link G)) = length (nodes G)
  ∧ length (nl_edges (_nx_to_node_link G)) = length (edges G).
Proof.
  simpl. unfold node_link_nodes, node_link_links, nodes.
  by rewrite length_imap, !length_fmap.
Qed.

Lemma string_of_nat_inj n m : string_of_nat n = string_of_nat m → n = m.
Proof.
  unfold string_of_nat. intros Heq.
  assert (Hu : Nat.to_uint n = Nat.to_uint m).
  { apply (f_equal NilEmpty.uint_of_string) in Heq.
    rewrite !NilEmpty.usu in Heq. congruence. }
  apply (f_equal Nat.of_uint) in Hu.
  by rewrite !DecimalNat.Unsigned.of_to in Hu.
Qed.

Lemma edge_id_inj i j : edge_id i = edge_id j → i = j.
Proof.
  unfold edge_id. intros Heq. injection Heq as Heq. by apply string_of_nat_inj.
Qed.

(** C10. Attributes that are already stored win over the values the
    serializer would fill in: a node's [degree] is the stored one when the
    node has such an attribute and the degree in [G] otherwise; an edge's
    [id] is the stored one and ["e" + index] otherwise; an edge's [label] is
    the stored one and the [relation] attribute otherwise. *)
Theorem serializer_keeps_stored_attributes (G : Graph) :
  (∀ i e, G !! i = Some e →
     ∃ r, nl_nodes (_nx_to_node_link G) !! i = Some r
          ∧ r !! "degree" =
              Some (match nattrs e !! "degree" with
                    | Some x => x
                    | None => VInt (Z.of_nat (degree G (nid e)))
                    end))
  ∧ (∀ i u v d, edges G !! i = Some (u, v, d) →
       ∃ r, nl_edges (_nx_to_node_link G) !! i = Some r
            ∧ r !! "id" =
                Some (match d !! "id" with
                      | Some x => x
                      | None => edge_id i
                      end)
            ∧ r !! "label" =
                match d !! "label" with
                | Some l => Some l
                | None => d !! "relation"
                end).
Proof.
  split.
  - intros i e Hi. eexists. split; [by apply nl_nodes_lookup|].
    rewrite normalize_node_degree.
    rewrite decide_True by (apply list_elem_of_fmap_2; by eapply list_elem_of_lookup_2).
    by destruct (nattrs e !! "degree").
  - intros i u v d Hi. eexists. split; [by apply nl_edges_lookup|].
    rewrite normalize_edge_id, normalize_edge_label.
    rewrite !link_record_lookup by done.
    split; [by destruct (d !! "id")|done].
Qed.

(** C5 fails as stated: on [graph_stored_id] the first edge brings its own
    id ["e1"], the second one is given ["e1"] as well, so the ids are neither
    [e0, e1] nor distinct. *)
Lemma serializer_edge_ids_counterexample :
  wf graph_stored_id
  ∧ ((λ r : attrs, r !! "id") <$> nl_edges (_nx_to_node_link graph_stored_id))
      = [Some (VStr "e1"); Some (VStr "e1")]
  ∧ ¬ NoDup ((λ r : attrs, r !! "id") <$>
               nl_edges (_nx_to_node_link graph_stored_id))
  ∧ ((λ r : attrs, r !! "id") <$> nl_edges (_nx_to_node_link graph_stored_id)) !! 0
      ≠ Some (Some (edge_id 0)).
Proof.
  assert (Hids : ((λ r : attrs, r !! "id") <$>
                    nl_edges (_nx_to_node_link graph_stored_id))
                 = [Some (VStr "e1"); Some (VStr "e1")])
    by (vm_compute; reflexivity).
  split; [apply (bool_decide_unpack _); vm_compute; exact I|].
  split; [exact Hids|]. rewrite Hids. split.
  - intros Hnd. apply NoDup_cons in Hnd as [Hnotin _].
    apply Hnotin. by left.
  - vm_compute. discriminate.
Qed.

(** C5, amended.  The serializer emits one record per node and one per edge
    ([G.number_of_nodes()] and, on a well-formed graph, [G.number_of_edges()]
    of them).
    An edge without an [id] attribute gets ["e" + index], its position in
    edge-iteration order counted from 0; an edge without a [label] attribute
    gets its [relation] attribute as label (and no label when it has no
    relation either).  When no edge carries an [id] attribute the ids are
    [e0, e1, e2, ...] and pairwise distinct. *)
Theorem serializer_totals_and_edge_ids (G : Graph) :
  length (nl_nodes (_nx_to_node_link G)) = number_of_nodes G
  ∧ length (nl_edges (_nx_to_node_link G)) = length (edges G)
  ∧ (wf G → length (nl_edges (_nx_to_node_link G)) = number_of_edges G)
  ∧ (∀ i u v d, edges G !! i = Some (u, v, d) →
       ∃ r, nl_edges (_nx_to_node_link G) !! i = Some r
            ∧ (d !! "id" = None → r !! "id" = Some (edge_id i))
            ∧ (d !! "label" = None → r !! "label" = d !! "relation"))
  ∧ ((∀ e, e ∈ edges G → e.2 !! "id" = None) →
       (∀ i r, nl_edges (_nx_to_node_link G) !! i = Some r →
               r !! "id" = Some (edge_id i))
       ∧ NoDup ((λ r : attrs, r !! "id") <$> nl_edges (_nx_to_node_link G))).
Proof.
  destruct (nl_lengths G) as [Hn He].
  split; [by rewrite Hn; unfold nodes, number_of_nodes; rewrite length_fmap|].
  split; [done|].
  split; [intros Hwf; by rewrite He, number_of_edges_edges|]. split.
  - intros i u v d Hi. eexists. split; [by apply nl_edges_lookup|].
    rewrite normalize_edge_id, normalize_edge_label.
    rewrite !link_record_lookup by done.
    split; intros ->; done.
  - intros Hnoid.
    assert (Hid : ∀ i r, nl_edges (_nx_to_node_link G) !! i = Some r →
                         r !! "id" = Some (edge_id i)).
    { intros i r Hr.
      destruct (edges G !! i) as [[[u v] d]|] eqn:Hi.
      - rewrite (nl_edges_lookup G i _ Hi) in Hr. injection Hr as <-.
        rewrite normalize_edge_id, link_record_lookup by done.
        assert (Hd : d !! "id" = None)
          by (apply (Hnoid (u, v, d)); by eapply list_elem_of_lookup_2).
        by rewrite Hd.
      - apply lookup_ge_None in Hi. apply lookup_lt_Some in Hr.
        rewrite He in Hr. lia. }
    split; [exact Hid|].
    apply NoDup_alt. intros i j x Hi Hj.
    rewrite list_lookup_fmap in Hi, Hj.
    destruct (nl_edges (_nx_to_node_link G) !! i) as [ri|] eqn:Hri; [|done].
    destruct (nl_edges (_nx_to_node_link G) !! j) as [rj|] eqn:Hrj; [|done].
    simpl in Hi, Hj. injection Hi as Hi. injection Hj as Hj.
    rewrite (Hid i ri Hri) in Hi. rewrite (Hid j rj Hrj) in Hj.
    apply edge_id_inj. congruence.
Qed.

Lemma serializer_totals_and_edge_ids_witness :
  (λ r : attrs, r !! "id") <$> nl_edges (_nx_to_node_link path4)
    = [Some (edge_id 0); Some (edge_id 1); Some (edge_id 2)]
  ∧ NoDup ((λ r : attrs, r !! "id") <$> nl_edges (_nx_to_node_link path4)).
Proof.
  destruct (serializer_totals_and_edge_ids path4) as (_ & _ & _ & _ & Hids).
  destruct Hids as [_ Hnd].
  - intros e He. vm_compute in He.
    repeat (apply elem_of_cons in He as [->|He]; [reflexivity|]).
    by apply elem_of_nil in He.
  - split; [vm_compute; reflexivity|exact Hnd].
Defined.

(** ** The scenarios of the specification, evaluated *)

Example scenario_stats :
  number_of_nodes path4 = 4
  ∧ number_of_edges path4 = 3
  ∧ length <$> connected_components path4 = Some 1.
Proof. repeat split; vm_compute; reflexivity. Qed.

Example scenario_min_degree :
  nodes <$> _filtered_graph path4 None 2 2000 = Some ["B"; "C"]
  ∧ edges <$> _filtered_graph path4 None 2 2000 = Some [("B", "C", cites)].
Proof. split; vm_compute; reflexivity. Qed.

Example scenario_ego :
  ∃ H, _ego_subgraph id path4 "B" 1 10 = Ok H
       ∧ nodes H = ["A"; "B"; "C"]
       ∧ edges H = [("A", "B", cites); ("B", "C", cites)].
Proof. eexists. split; [vm_compute; reflexivity|]. split; reflexivity. Qed.

Example scenario_ego_missing_center :
  _ego_subgraph id path4 "Z" 1 10
  = Raise (HTTPException 404 "Center node 'Z' not found").
Proof. vm_compute. reflexivity. Qed.

Example scenario_node_link :
  (λ r : attrs, (r !! "id", r !! "source", r !! "target", r !! "label"))
    <$> nl_edges (_nx_to_node_link path4)
  = [ (Some (VStr "e0"), Some (VStr "A"), Some (VStr "B"), Some (VStr "cites"));
      (Some (VStr "e1"), Some (VStr "B"), Some (VStr "C"), Some (VStr "cites"));
      (Some (VStr "e2"), Some (VStr "C"), Some (VStr "D"), None) ]
  ∧ (λ r : attrs, (r !! "id", r !! "label", r !! "degree"))
      <$> nl_nodes (_nx_to_node_link path4)
    = [ (Some (VStr "A"), Some (VStr "A"), Some (VInt 1));
        (Some (VStr "B"), Some (VStr "B"), Some (VInt 2));
        (Some (VStr "C"), Some (VStr "C"), Some (VInt 2));
        (Some (VStr "D"), Some (VStr "D"), Some (VInt 1)) ].
Proof. split; vm_compute; reflexivity. Qed.

Example scenario_two_components :
  nodes <$> _filtered_graph five_and_three None 0 6
  = Some ["a1"; "a2"; "a3"; "a4"; "a5"].
Proof. vm_compute. reflexivity. Qed.

Example lower_mixed_case : lower "KnowLedge Graph 42" = "knowledge graph 42".
Proof. reflexivity. Qed.

Example slice_negative_bounds :
  py_slice (-3) (-1) [1; 2; 3; 4; 5] = [3; 4]
  ∧ py_slice_to (-1) [1; 2; 3] = [1; 2]
  ∧ py_slice 1 10 [1; 2; 3] = [2; 3].
Proof. repeat split; reflexivity. Qed.

(** ** Further properties of the filter pipeline *)

Lemma induced_subgraph_refl G : wf G → induced_subgraph G G.
Proof.
  intros Hwf. split.
  - intros e He. by exists e.
  - intros u v d. split; [|tauto]. intros Huv.
    destruct (wf_has_edge_nodes G u v d Hwf Huv). tauto.
Qed.

Lemma induced_subgraph_nodes R G n :
  induced_subgraph R G → n ∈ nodes R → n ∈ nodes G.
Proof.
  intros [Hent _] Hn. apply elem_of_nodes in Hn as (e' & He' & <-).
  destruct (Hent e' He') as (e & He & Hid & _).
  apply elem_of_nodes. by exists e.
Qed.

Lemma induced_subgraph_trans R H G :
  induced_subgraph R H → induced_subgraph H G → induced_subgraph R G.
Proof.
  intros HRH HHG. pose proof HRH as [Hent1 Hedge1]. pose proof HHG as [Hent2 Hedge2].
  split.
  - intros e' He'. destruct (Hent1 e' He') as (e1 & He1 & Hid1 & Hat1).
    destruct (Hent2 e1 He1) as (e & He & Hid & Hat).
    exists e. split; [done|]. split; congruence.
  - intros u v d. rewrite Hedge1, Hedge2. split; [tauto|].
    intros (Huv & Hu & Hv). split; [|done]. split; [done|].
    split; by eapply induced_subgraph_nodes.
Qed.

Lemma induced_subgraph_restrict (P : string → Prop) `{!∀ x, Decision (P x)} G :
  wf G → induced_subgraph (restrict P G) G.
Proof.
  intros Hwf. split.
  - intros e' He'. unfold restrict in He'.
    apply list_elem_of_fmap in He' as (e & -> & He).
    apply list_elem_of_filter in He as [_ He]. by exists e.
  - intros u v d. rewrite has_edge_restrict, nodes_restrict, !list_elem_of_filter.
    split; [|tauto]. intros (Huv & Hu & Hv).
    destruct (wf_has_edge_nodes G u v d Hwf Huv). tauto.
Qed.

Lemma induced_degree_step G m : wf G → induced_subgraph (degree_step G m) G.
Proof.
  intros Hwf. unfold degree_step. destruct (decide (0 < m)%Z).
  - by apply induced_subgraph_restrict.
  - by apply induced_subgraph_refl.
Qed.

Lemma induced_substring_step G q : wf G → induced_subgraph (substring_step G q) G.
Proof.
  intros Hwf. unfold substring_step.
  destruct q as [qs|]; [|by apply induced_subgraph_refl].
  destruct (truthy (VStr qs)); [|by apply induced_subgraph_refl].
  by apply induced_subgraph_restrict.
Qed.

Lemma induced_prefiltered G q min_degree :
  wf G → induced_subgraph (prefiltered G q min_degree) G.
Proof.
  intros Hwf. eapply induced_subgraph_trans.
  - apply induced_substring_step. by apply wf_degree_step.
  - by apply induced_degree_step.
Qed.

(** What the downsampling step answers on a well-formed graph. *)
Lemma downsample_step_cases H max_nodes :
  wf H →
  (downsample_step H max_nodes = Some H
   ∧ ¬ ((max_nodes < Z.of_nat (number_of_nodes H))%Z ∧ 0 < number_of_nodes H))
  ∨ (∃ comps,
       connected_components H = Some comps
       ∧ (∀ c, c ∈ comps → NoDup c ∧ is_component H c)
       ∧ (∀ v, v ∈ nodes H → ∃ c, c ∈ comps ∧ v ∈ c)
       ∧ downsample_step H max_nodes =
           Some (subgraph H (greedy_keep max_nodes [] (sorted_by_len_desc comps)))
       ∧ (max_nodes < Z.of_nat (number_of_nodes H))%Z ∧ 0 < number_of_nodes H).
Proof.
  intros Hwf. unfold downsample_step. destruct (decide _) as [Hbig|Hsmall].
  - right. destruct (connected_components_spec H Hwf) as (comps & Hcc & Hcomp & Hcover).
    exists comps. rewrite Hcc. simpl. tauto.
  - left. done.
Qed.

Lemma length_nodes_subgraph_le G keep :
  wf G → length (nodes (subgraph G keep)) ≤ length keep.
Proof.
  intros [Hnd _]. rewrite nodes_subgraph. apply NoDup_subseteq_length.
  - by apply NoDup_filter.
  - intros x Hx. by apply list_elem_of_filter in Hx as [Hx _].
Qed.

(** X1. On a well-formed graph [_filtered_graph] returns, and what it returns
    is a well-formed induced subgraph of its input: no node is added, node
    attributes are unchanged, and the edges are exactly the input's edges
    between the nodes that are left, attributes included. *)
Theorem filtered_is_induced_subgraph (G : Graph) (q : option string)
    (min_degree max_nodes : Z) :
  wf G →
  ∃ R, _filtered_graph G q min_degree max_nodes = Some R
       ∧ wf R ∧ induced_subgraph R G.
Proof.
  intros Hwf.
  pose proof (wf_prefiltered G q min_degree Hwf) as HwfH.
  pose proof (induced_prefiltered G q min_degree Hwf) as Hind.
  unfold _filtered_graph. fold (prefiltered G q min_degree).
  destruct (downsample_step_cases (prefiltered G q min_degree) max_nodes HwfH)
    as [[-> _]|(comps & _ & _ & _ & -> & _)].
  - by eexists.
  - eexists. split; [done|]. split; [by apply wf_restrict|].
    eapply induced_subgraph_trans; [|exact Hind].
    by apply induced_subgraph_restrict.
Qed.

Lemma filtered_is_induced_subgraph_witness :
  ∃ R, _filtered_graph path4 (Some "b") 1 1 = Some R
       ∧ wf R ∧ induced_subgraph R path4.
Proof. apply (filtered_is_induced_subgraph path4 (Some "b") 1 1), wf_path4. Defined.

(** The node bound of [_filtered_graph], shared by the route handlers. *)
Lemma filtered_node_bound G q min_degree max_nodes R :
  wf G → (0 ≤ max_nodes)%Z →
  _filtered_graph G q min_degree max_nodes = Some R →
  (Z.of_nat (length (nodes R)) ≤ max_nodes)%Z.
Proof.
  intros Hwf Hmax HR.
  pose proof (wf_prefiltered G q min_degree Hwf) as HwfH.
  unfold _filtered_graph in HR. fold (prefiltered G q min_degree) in HR.
  destruct (downsample_step_cases (prefiltered G q min_degree) max_nodes HwfH)
    as [[Heq Hsmall]|(comps & _ & _ & _ & Heq & _)];
    rewrite Heq in HR; injection HR as <-.
  - unfold nodes, number_of_nodes in *. rewrite length_fmap. lia.
  - pose proof (length_nodes_subgraph_le (prefiltered G q min_degree)
                  (greedy_keep max_nodes [] (sorted_by_len_desc comps)) HwfH) as Hle.
    destruct (greedy_keep_spec max_nodes [] (sorted_by_len_desc comps))
      as (k & _ & _ & _ & _ & Hlen).
    specialize (Hlen ltac:(simpl; lia)). lia.
Qed.

(** ** Further properties of the serializer *)

Lemma normalize_node_other G x (a : attrs) k :
  k ≠ "label" → k ≠ "degree" →
  normalize_node G (<["id" := VStr x]> a) !! k = <["id" := VStr x]> a !! k.
Proof.
  intros Hl Hd. unfold normalize_node.
  rewrite (setdefault_lookup_ne "label" "id") by done.
  rewrite lookup_insert_eq.
  rewrite !setdefault_lookup_ne by done. done.
Qed.

Lemma normalize_edge_other i (e : attrs) k :
  k ≠ "id" → k ≠ "label" → normalize_edge i e !! k = e !! k.
Proof.
  intros Hi Hl. unfold normalize_edge.
  destruct (setdefault "id" _ e !! "relation");
    rewrite !setdefault_lookup_ne by done; done.
Qed.

Lemma nl_node_ids G :
  (λ r : attrs, r !! "id") <$> nl_nodes (_nx_to_node_link G)
  = (λ n, Some (VStr n)) <$> nodes G.
Proof.
  simpl. unfold node_link_nodes, nodes. rewrite <- !list_fmap_compose.
  apply list_fmap_ext. intros i e _. simpl.
  rewrite normalize_node_other by done. apply lookup_insert_eq.
Qed.

Lemma elem_of_nl_nodes G r :
  r ∈ nl_nodes (_nx_to_node_link G) →
  ∃ e, e ∈ G ∧ r = normalize_node G (<["id" := VStr (nid e)]> (nattrs e)).
Proof.
  simpl. unfold node_link_nodes. rewrite <- list_fmap_compose.
  intros Hr. apply list_elem_of_fmap in Hr as (e & -> & He). by exists e.
Qed.

Lemma elem_of_nl_edges G r :
  r ∈ nl_edges (_nx_to_node_link G) →
  ∃ i u v d, edges G !! i = Some (u, v, d)
             ∧ r = normalize_edge i (link_record (u, v, d)).
Proof.
  intros Hr. apply list_elem_of_lookup in Hr as [i Hi].
  simpl in Hi. unfold node_link_links in Hi.
  rewrite list_lookup_imap, list_lookup_fmap in Hi.
  destruct (edges G !! i) as [[[u v] d]|] eqn:He; [|done].
  simpl in Hi. injection Hi as <-. by exists i, u, v, d.
Qed.

Lemma node_id_in_nl_nodes G n :
  n ∈ nodes G →
  ∃ r, r ∈ nl_nodes (_nx_to_node_link G) ∧ r !! "id" = Some (VStr n).
Proof.
  intros Hn.
  assert (Hin : Some (VStr n) ∈
                (λ r : attrs, r !! "id") <$> nl_nodes (_nx_to_node_link G)).
  { rewrite nl_node_ids. apply list_elem_of_fmap. by exists n. }
  apply list_elem_of_fmap in Hin as (r & Hid & Hr). by exists r.
Qed.

(** X2. The node-link view is closed: the ids of the node records are the
    nodes of the graph, in order and pairwise distinct, whatever [id]
    attribute a node carries; and on a well-formed graph the [source] and the
    [target] of every edge record are ids of node records of the same view,
    whatever [source] or [target] attribute an edge carries. *)
Theorem node_link_is_closed (G : Graph) :
  wf G →
  (λ r : attrs, r !! "id") <$> nl_nodes (_nx_to_node_link G)
    = (λ n, Some (VStr n)) <$> nodes G
  ∧ NoDup ((λ r : attrs, r !! "id") <$> nl_nodes (_nx_to_node_link G))
  ∧ (∀ r, r ∈ nl_edges (_nx_to_node_link G) →
       ∃ u v rs rt,
         r !! "source" = Some (VStr u) ∧ r !! "target" = Some (VStr v)
         ∧ rs ∈ nl_nodes (_nx_to_node_link G) ∧ rs !! "id" = Some (VStr u)
         ∧ rt ∈ nl_nodes (_nx_to_node_link G) ∧ rt !! "id" = Some (VStr v)).
Proof.
  intros Hwf. split; [apply nl_node_ids|]. split.
  - rewrite nl_node_ids. apply NoDup_fmap_2; [|by destruct Hwf].
    intros x y Hxy. by injection Hxy.
  - intros r Hr. apply elem_of_nl_edges in Hr as (i & u & v & d & Hi & ->).
    assert (Hin : (u, v, d) ∈ edges G) by by eapply list_elem_of_lookup_2.
    destruct (edges_endpoints G u v d Hwf Hin) as [Hu Hv].
    destruct (node_id_in_nl_nodes G u Hu) as (rs & Hrs & Hids).
    destruct (node_id_in_nl_nodes G v Hv) as (rt & Hrt & Hidt).
    exists u, v, rs, rt. rewrite !normalize_edge_other by done.
    unfold link_record. simpl.
    rewrite lookup_insert_ne, !lookup_insert_eq by done. done.
Qed.

Lemma node_link_is_closed_witness :
  (λ r : attrs, r !! "id") <$> nl_nodes (_nx_to_node_link graph_stored_id)
    = [Some (VStr "A"); Some (VStr "B"); Some (VStr "C")].
Proof.
  destruct (node_link_is_closed graph_stored_id) as (Hids & _).
  - apply (bool_decide_unpack _). vm_compute. exact I.
  - rewrite Hids. reflexivity.
Defined.

(** X3. The serializer changes nothing else: a node record carries every
    node attribute other than [id], [label] and [degree] as stored, and its
    label is the stored label, or the node id when there is none; an edge
    record carries every edge attribute other than [id], [label], [source]
    and [target] as stored. *)
Theorem node_link_passes_attributes (G : Graph) :
  (∀ i e, G !! i = Some e →
     ∃ r, nl_nodes (_nx_to_node_link G) !! i = Some r
          ∧ r !! "label" = Some (default (VStr (nid e)) (nattrs e !! "label"))
          ∧ ∀ k, k ≠ "id" → k ≠ "label" → k ≠ "degree" →
                 r !! k = nattrs e !! k)
  ∧ (∀ i u v d, edges G !! i = Some (u, v, d) →
       ∃ r, nl_edges (_nx_to_node_link G) !! i = Some r
            ∧ ∀ k, k ≠ "id" → k ≠ "label" → k ≠ "source" → k ≠ "target" →
                   r !! k = d !! k).
Proof.
  split.
  - intros i e Hi. eexists. split; [by apply nl_nodes_lookup|].
    split; [apply normalize_node_label|].
    intros k Hid Hl Hd. rewrite normalize_node_other by done.
    by apply lookup_insert_ne.
  - intros i u v d Hi. eexists. split; [by apply nl_edges_lookup|].
    intros k Hid Hl Hs Ht. rewrite normalize_edge_other by done.
    by apply link_record_lookup.
Qed.

(** ** The node-link route *)

(** X4. The [/node-link] handler with a non-negative [max_nodes], on a
    provider whose graph is well-formed: it answers with a view of at most
    [max_nodes] node records, each of them a node of the provider's graph;
    when the provider has no graph to give, the handler fails with the
    provider's error. *)
Theorem node_link_route_respects_cap (provider : KGProvider)
    (query : option string) (min_degree max_nodes : Z) :
  (0 ≤ max_nodes)%Z →
  (∀ G, get_graph provider = Ok G → wf G) →
  match get_graph provider with
  | Raise e =>
      kg_endpoints.get_node_link provider query min_degree max_nodes
      = Some (Raise e)
  | Ok G =>
      ∃ nl, kg_endpoints.get_node_link provider query min_degree max_nodes
            = Some (Ok nl)
            ∧ (Z.of_nat (length (nl_nodes nl)) ≤ max_nodes)%Z
            ∧ ∀ r, r ∈ nl_nodes nl →
                   ∃ n, r !! "id" = Some (VStr n) ∧ n ∈ nodes G
  end.
Proof.
  intros Hmax Hwf. unfold kg_endpoints.get_node_link.
  destruct (get_graph provider) as [G|e] eqn:Hget; [|done].
  specialize (Hwf G eq_refl).
  destruct (filtered_total G query min_degree max_nodes Hwf) as [R HR].
  pose proof (filtered_node_bound G query min_degree max_nodes R Hwf Hmax HR) as Hle.
  assert (Hind : induced_subgraph R G).
  { unfold _filtered_graph in HR. fold (prefiltered G query min_degree) in HR.
    pose proof (wf_prefiltered G query min_degree Hwf) as HwfH.
    pose proof (induced_prefiltered G query min_degree Hwf) as Hpre.
    destruct (downsample_step_cases (prefiltered G query min_degree) max_nodes HwfH)
      as [[Heq _]|(comps & _ & _ & _ & Heq & _)];
      rewrite Heq in HR; injection HR as <-; [done|].
    eapply induced_subgraph_trans; [|exact Hpre].
    by apply induced_subgraph_restrict. }
  rewrite HR. simpl. eexists. split; [done|]. split.
  - destruct (nl_lengths R) as [-> _]. done.
  - intros r Hr. apply elem_of_nl_nodes in Hr as (e & He & ->).
    exists (nid e). split.
    + rewrite normalize_node_other by done. apply lookup_insert_eq.
    + eapply induced_subgraph_nodes; [exact Hind|].
      apply elem_of_nodes. by exists e.
Qed.

Lemma node_link_route_respects_cap_witness :
  ∃ nl, kg_endpoints.get_node_link (KGFrozenGraph five_and_three) None 0 6
        = Some (Ok nl)
        ∧ (Z.of_nat (length (nl_nodes nl)) ≤ 6)%Z
        ∧ ∀ r, r ∈ nl_nodes nl →
               ∃ n, r !! "id" = Some (VStr n) ∧ n ∈ nodes five_and_three.
Proof.
  apply (node_link_route_respects_cap (KGFrozenGraph five_and_three) None 0 6).
  - lia.
  - intros G HG. injection HG as <-. exact wf_five_and_three.
Defined.

(** ** The largest component decides *)

Lemma sorted_head_largest (h : pyset) rest c :
  StronglySorted len_ge (h :: rest) → c ∈ h :: rest → length c ≤ length h.
Proof.
  intros Hs Hc. apply StronglySorted_inv in Hs as [_ Hall].
  apply elem_of_cons in Hc as [->|Hc]; [done|].
  rewrite Forall_forall in Hall. by apply Hall.
Qed.

Lemma greedy_keep_mono max_nodes keep comps v :
  v ∈ keep → v ∈ greedy_keep max_nodes keep comps.
Proof.
  intros Hv. destruct (greedy_keep_spec max_nodes keep comps) as (k & _ & Hmem & _).
  apply Hmem. by left.
Qed.

(** Two duplicate-free listings of the same connected component have the
    same length. *)
Lemma is_component_length G c c' s :
  NoDup c → NoDup c' →
  (∀ v, v ∈ c ↔ connected G s v) → (∀ v, v ∈ c' ↔ connected G s v) →
  length c = length c'.
Proof.
  intros Hc Hc' Hmem Hmem'. apply Permutation_length.
  apply NoDup_Permutation; [done|done|]. intros v. by rewrite Hmem, Hmem'.
Qed.

(** Every connected component has a listing of the same length among the
    computed ones. *)
Lemma component_among_computed G (comps : list pyset) (c : pyset) :
  wf G →
  (∀ c', c' ∈ comps → NoDup c' ∧ is_component G c') →
  (∀ v, v ∈ nodes G → ∃ c', c' ∈ comps ∧ v ∈ c') →
  NoDup c → is_component G c →
  ∃ c', c' ∈ comps ∧ length c' = length c ∧ ∀ v, v ∈ c' ↔ v ∈ c.
Proof.
  intros Hwf Hcomp Hcover Hnd (s & Hs & Hmem).
  destruct (Hcover s Hs) as (c' & Hc' & Hsc').
  destruct (Hcomp c' Hc') as [Hnd' (s' & Hs' & Hmem')].
  assert (Hsame : ∀ v, v ∈ c' ↔ v ∈ c).
  { intros v. rewrite Hmem, Hmem'. apply Hmem' in Hsc'. split.
    - intros Hv. etrans; [by apply connected_sym|done].
    - intros Hv. etrans; [exact Hsc'|done]. }
  exists c'. split; [done|]. split; [|done].
  apply Permutation_length. by apply NoDup_Permutation.
Qed.

(** X5. When some connected component of the graph that reaches the
    downsampling step has more than [max_nodes] nodes, [_filtered_graph]
    returns the empty graph: the largest component is tried first and the
    loop stops at it, so smaller components that would fit are dropped
    too. *)
Theorem downsample_empty_when_largest_exceeds (G : Graph) (q : option string)
    (min_degree max_nodes : Z) (c : pyset) :
  wf G → NoDup c → is_component (prefiltered G q min_degree) c →
  (max_nodes < Z.of_nat (length c))%Z →
  _filtered_graph G q min_degree max_nodes = Some [].
Proof.
  intros Hwf Hnd Hc Hbig.
  pose proof (wf_prefiltered G q min_degree Hwf) as HwfH.
  set (H := prefiltered G q min_degree) in *.
  assert (Hc_nodes : length c ≤ number_of_nodes H).
  { unfold number_of_nodes. rewrite <- (length_fmap nid). fold (nodes H).
    apply NoDup_subseteq_length; [done|].
    intros v Hv. by apply (is_component_nodes H c). }
  assert (Hc_pos : 0 < length c).
  { destruct Hc as (s & _ & Hmem). assert (s ∈ c) as Hs by (apply Hmem; constructor).
    destruct c; [by apply elem_of_nil in Hs|simpl; lia]. }
  unfold _filtered_graph. fold (prefiltered G q min_degree). fold H.
  destruct (downsample_step_cases H max_nodes HwfH)
    as [[_ Hsmall]|(comps & _ & Hcomp & Hcover & -> & _)].
  { destruct Hsmall. split; lia. }
  destruct (component_among_computed H comps c HwfH Hcomp Hcover Hnd Hc)
    as (c' & Hc' & Hlen & _).
  pose proof (sorted_by_len_desc_Permutation comps) as Hperm.
  pose proof (sorted_by_len_desc_sorted comps) as Hsorted.
  destruct (sorted_by_len_desc comps) as [|h rest] eqn:Hs.
  { rewrite <- Hperm in Hc'. by apply elem_of_nil in Hc'. }
  assert (length c' ≤ length h) as Hh.
  { apply (sorted_head_largest h rest); [done|]. by rewrite Hperm. }
  simpl. rewrite decide_True by (simpl; lia).
  f_equal. unfold subgraph, restrict.
  rewrite (filter_none (λ e, nid e ∈ [])); [done|].
  intros e _. apply not_elem_of_nil.
Qed.

Lemma downsample_empty_when_largest_exceeds_witness :
  _filtered_graph five_and_three None 0 4 = Some [].
Proof.
  apply (downsample_empty_when_largest_exceeds five_and_three None 0 4
           ["a1"; "a2"; "a3"; "a4"; "a5"]).
  - exact wf_five_and_three.
  - by apply (bool_decide_unpack _).
  - destruct (connected_components_spec five_and_three wf_five_and_three)
      as (comps & Hcc & Hcomp & _).
    assert (Hcomps : connected_components five_and_three
                     = Some [["b1"; "b2"; "b3"]; ["a1"; "a2"; "a3"; "a4"; "a5"]])
      by (vm_compute; reflexivity).
    rewrite Hcomps in Hcc. injection Hcc as <-.
    apply Hcomp. right. by left.
  - simpl. lia.
Defined.

(** X6. When more than [max_nodes] nodes reach the downsampling step and
    every connected component there has at most [max_nodes] nodes, the
    result is not empty: it has at least as many nodes as the largest
    component. *)
Theorem downsample_keeps_largest_when_it_fits (G : Graph) (q : option string)
    (min_degree max_nodes : Z) :
  wf G →
  (max_nodes < Z.of_nat (number_of_nodes (prefiltered G q min_degree)))%Z →
  0 < number_of_nodes (prefiltered G q min_degree) →
  (∀ c, NoDup c → is_component (prefiltered G q min_degree) c →
        (Z.of_nat (length c) ≤ max_nodes)%Z) →
  ∃ R, _filtered_graph G q min_degree max_nodes = Some R
       ∧ 0 < length (nodes R)
       ∧ ∀ c, NoDup c → is_component (prefiltered G q min_degree) c →
              length c ≤ length (nodes R).
Proof.
  intros Hwf Hmany Hpos Hfit.
  pose proof (wf_prefiltered G q min_degree Hwf) as HwfH.
  set (H := prefiltered G q min_degree) in *.
  unfold _filtered_graph. fold (prefiltered G q min_degree). fold H.
  destruct (downsample_step_cases H max_nodes HwfH)
    as [[_ Hsmall]|(comps & _ & Hcomp & Hcover & -> & _)].
  { destruct Hsmall. split; lia. }
  pose proof (sorted_by_len_desc_Permutation comps) as Hperm.
  pose proof (sorted_by_len_desc_sorted comps) as Hsorted.
  destruct (sorted_by_len_desc comps) as [|h rest] eqn:Hs.
  { exfalso. destruct H as [|e H']; [simpl in Hpos; lia|].
    destruct (Hcover (nid e)) as (c' & Hc' & _); [by left|].
    rewrite <- Hperm in Hc'. by apply elem_of_nil in Hc'. }
  assert (Hh : h ∈ comps) by (rewrite <- Hperm; by left).
  destruct (Hcomp h Hh) as [Hh_nd Hh_comp].
  eexists. split; [done|].
  set (keep := greedy_keep max_nodes [] (h :: rest)).
  assert (Hh_keep : ∀ v, v ∈ h → v ∈ keep).
  { intros v Hv. unfold keep. simpl.
    rewrite decide_False by (specialize (Hfit h Hh_nd Hh_comp); simpl; lia).
    apply greedy_keep_mono. apply elem_of_set_update. by right. }
  assert (Hh_le : length h ≤ length (nodes (subgraph H keep))).
  { apply NoDup_subseteq_length; [done|]. intros v Hv.
    apply elem_of_nodes_subgraph. split; [|by apply Hh_keep].
    by apply (is_component_nodes H h). }
  assert (Hh_pos : 0 < length h).
  { destruct Hh_comp as (s & _ & Hmem).
    assert (s ∈ h) as Hsh by (apply Hmem; constructor).
    destruct h; [by apply elem_of_nil in Hsh|simpl; lia]. }
  split; [lia|].
  intros c Hnd Hc.
  destruct (component_among_computed H comps c HwfH Hcomp Hcover Hnd Hc)
    as (c' & Hc' & Hlen & _).
  assert (length c' ≤ length h).
  { apply (sorted_head_largest h rest); [done|]. by rewrite Hperm. }
  lia.
Qed.

Lemma downsample_keeps_largest_when_it_fits_witness :
  ∃ R, _filtered_graph five_and_three None 0 6 = Some R
       ∧ 0 < length (nodes R)
       ∧ ∀ c, NoDup c → is_component (prefiltered five_and_three None 0) c →
              length c ≤ length (nodes R).
Proof.
  apply (downsample_keeps_largest_when_it_fits five_and_three None 0 6).
  - exact wf_five_and_three.
  - vm_compute. reflexivity.
  - vm_compute. lia.
  - intros c Hnd Hc.
    assert (length c ≤ length (nodes (prefiltered five_and_three None 0))) as Hle.
    { apply NoDup_subseteq_length; [done|]. intros v Hv.
      apply (is_component_nodes _ c); [|done|done].
      apply wf_prefiltered, wf_five_and_three. }
    destruct (connected_components_spec five_and_three wf_five_and_three)
      as (comps & Hcc & Hcomp & Hcover).
    assert (Hcomps : connected_components five_and_three
                     = Some [["b1"; "b2"; "b3"]; ["a1"; "a2"; "a3"; "a4"; "a5"]])
      by (vm_compute; reflexivity).
    rewrite Hcomps in Hcc. injection Hcc as <-.
    destruct (component_among_computed (prefiltered five_and_three None 0)
                [["b1"; "b2"; "b3"]; ["a1"; "a2"; "a3"; "a4"; "a5"]] c)
      as (c' & Hc' & Hlen & _); try done.
    { apply wf_prefiltered, wf_five_and_three. }
    rewrite <- Hlen.
    apply elem_of_cons in Hc' as [->|Hc']; [simpl; lia|].
    apply list_elem_of_singleton in Hc' as ->. simpl. lia.
Defined.

(** ** Statistics *)

Lemma elem_of_concat (ls : list pyset) (x : string) :
  x ∈ concat ls ↔ ∃ l, l ∈ ls ∧ x ∈ l.
Proof.
  induction ls as [|l ls IH]; simpl.
  - rewrite elem_of_nil. split; [done|]. intros (l & Hl & _).
    by apply elem_of_nil in Hl.
  - rewrite elem_of_app, IH. split.
    + intros [Hx|(l' & Hl' & Hx)].
      * exists l. split; [by left|done].
      * exists l'. split; [by right|done].
    + intros (l' & Hl' & Hx). apply elem_of_cons in Hl' as [->|Hl'].
      * by left.
      * right. by exists l'.
Qed.

(** The components that the search yields do not overlap, and none of them
    meets what had been seen before. *)
Lemma cc_loop_disjoint G seen vs comps :
  wf G → (∀ v, v ∈ vs → v ∈ nodes G) →
  (∀ x y, x ∈ seen → connected G x y → y ∈ seen) →
  cc_loop G seen vs = Some comps →
  NoDup (concat comps) ∧ ∀ x, x ∈ concat comps → x ∉ seen.
Proof.
  intros Hwf. revert seen comps.
  induction vs as [|v vs IH]; intros seen comps Hvs Hclosed Hcc; simpl in Hcc.
  - injection Hcc as <-. simpl. split; [constructor|].
    intros x Hx. by apply elem_of_nil in Hx.
  - destruct (decide (v ∈ seen)) as [Hv|Hv].
    + apply IH; [|done|done]. intros w Hw. apply Hvs. by right.
    + destruct (plain_bfs_spec G v Hwf) as (c & Hc & Hnd & Hvc & Hmem).
      { apply Hvs. by left. }
      rewrite Hc in Hcc. simpl in Hcc.
      destruct (cc_loop G (set_update seen c) vs) as [cs|] eqn:Hcs; [|done].
      simpl in Hcc. injection Hcc as <-.
      destruct (IH (set_update seen c) cs) as [Hnd' Hdis]; [| |done|].
      { intros w Hw. apply Hvs. by right. }
      { intros x y Hx Hxy. apply elem_of_set_update.
        apply elem_of_set_update in Hx as [Hx|Hx].
        - left. by apply (Hclosed x).
        - right. apply Hmem. etrans; [by apply Hmem|done]. }
      assert (Hc_seen : ∀ x, x ∈ c → x ∉ seen).
      { intros x Hx Hxs. apply Hv. apply (Hclosed x); [done|].
        apply connected_sym. by apply Hmem. }
      simpl. split.
      * apply NoDup_app. split; [done|]. split; [|done].
        intros x Hx Hx'. apply (Hdis x Hx'). apply elem_of_set_update. by right.
      * intros x Hx. apply elem_of_app in Hx as [Hx|Hx]; [by apply Hc_seen|].
        intros Hxs. apply (Hdis x Hx). apply elem_of_set_update. by left.
Qed.

(** The connected components partition the nodes. *)
Lemma connected_components_partition G comps :
  wf G → connected_components G = Some comps →
  concat comps ≡ₚ nodes G.
Proof.
  intros Hwf Hcc.
  destruct (connected_components_spec G Hwf) as (comps' & Hcc' & Hcomp & Hcover).
  rewrite Hcc in Hcc'. injection Hcc' as <-.
  destruct (cc_loop_disjoint G [] (nodes G) comps Hwf) as [Hnd _]; [done| |done|].
  { intros x y Hx. by apply elem_of_nil in Hx. }
  apply NoDup_Permutation; [done|by destruct Hwf|].
  intros v. rewrite elem_of_concat. split.
  - intros (c & Hc & Hv). apply (is_component_nodes G c); [done| |done].
    by apply Hcomp.
  - apply Hcover.
Qed.

Lemma component_nonempty G (c : pyset) : is_component G c → 0 < length c.
Proof.
  intros (s & _ & Hmem). assert (s ∈ c) as Hs by (apply Hmem; constructor).
  destruct c; [by apply elem_of_nil in Hs|simpl; lia].
Qed.

Lemma length_concat_ge (ls : list pyset) :
  (∀ l, l ∈ ls → 0 < length l) → length ls ≤ length (concat ls).
Proof.
  induction ls as [|l ls IH]; intros Hpos; simpl; [lia|].
  rewrite length_app.
  specialize (Hpos l ltac:(by left)) as Hl.
  specialize (IH ltac:(intros l' Hl'; apply Hpos; by right)). lia.
Qed.

(** X7. The [/stats] handler on a well-formed graph: it answers; the node
    count is the number of nodes and the edge count the number of edges that
    edge iteration reports; the component count is the length of a list of
    connected components that do not overlap and cover every node, so it is
    at most the node count, and it is zero only for the empty graph. *)
Theorem stats_counts (G : Graph) :
  wf G →
  ∃ comps,
    kg_endpoints.stats (KGFrozenGraph G)
    = Some (Ok (mkKGStats (length (nodes G)) (length (edges G)) (length comps)))
    ∧ (∀ c, c ∈ comps → is_component G c)
    ∧ concat comps ≡ₚ nodes G
    ∧ length comps ≤ length (nodes G)
    ∧ (length comps = 0 ↔ G = []).
Proof.
  intros Hwf.
  destruct (connected_components_spec G Hwf) as (comps & Hcc & Hcomp & Hcover).
  pose proof (connected_components_partition G comps Hwf Hcc) as Hpart.
  assert (Hpos : ∀ c, c ∈ comps → 0 < length c).
  { intros c Hc. apply (component_nonempty G). by apply Hcomp. }
  exists comps. split.
  { unfold kg_endpoints.stats. simpl. rewrite Hcc. simpl.
    rewrite number_of_edges_edges by done.
    unfold number_of_nodes, nodes. by rewrite length_fmap. }
  split; [intros c Hc; by apply Hcomp|]. split; [done|]. split.
  - rewrite <- (Permutation_length Hpart). by apply length_concat_ge.
  - split.
    + intros Hlen. destruct comps; [|done]. simpl in Hpart.
      apply Permutation_nil_l in Hpart. symmetry in Hpart.
      by apply fmap_nil_inv in Hpart.
    + intros ->. vm_compute in Hcc. by injection Hcc as <-.
Qed.

Lemma stats_counts_witness :
  ∃ comps,
    kg_endpoints.stats (KGFrozenGraph path4)
    = Some (Ok (mkKGStats (length (nodes path4)) (length (edges path4))
                  (length comps)))
    ∧ (∀ c, c ∈ comps → is_component path4 c)
    ∧ concat comps ≡ₚ nodes path4
    ∧ length comps ≤ length (nodes path4)
    ∧ (length comps = 0 ↔ path4 = []).
Proof. apply (stats_counts path4), wf_path4. Defined.

(** ** Further properties of ego expansion *)

Lemma py_slice_to_subseteq {A} (hi : Z) (l : list A) x :
  x ∈ py_slice_to hi l → x ∈ l.
Proof. unfold py_slice_to. apply subseteq_take. Qed.

Lemma length_py_slice_to {A} (hi : Z) (l : list A) :
  (0 ≤ hi)%Z → (Z.of_nat (length (py_slice_to hi l)) ≤ hi)%Z.
Proof.
  intros Hhi. unfold py_slice_to, slice_index. rewrite decide_False by lia.
  rewrite length_take. lia.
Qed.

(** X8. Whatever the traversal finds, on a well-formed graph with the center
    present and a non-negative [max_nodes], [_ego_subgraph] returns a
    well-formed induced subgraph of [G] with at most [max_nodes] nodes, all
    of them within [depth] hops of the center. *)
Theorem ego_respects_cap (set_iter : pyset → list string)
    (G : Graph) (center : string) (depth max_nodes : Z) :
  set_order_ok set_iter → wf G → center ∈ nodes G → (0 ≤ max_nodes)%Z →
  ∃ H, _ego_subgraph set_iter G center depth max_nodes = Ok H
       ∧ wf H ∧ induced_subgraph H G
       ∧ (Z.of_nat (length (nodes H)) ≤ max_nodes)%Z
       ∧ ∀ v, v ∈ nodes H → within G center (Z.to_nat depth) v.
Proof.
  intros Hiter Hwf Hc Hmax. unfold _ego_subgraph.
  rewrite decide_True by done. eexists. split; [done|].
  destruct (ego_visited_spec set_iter Hiter G center (Z.to_nat depth) max_nodes)
    as (Hnd & j & Hj & Hmem & _).
  set (R := ego_loop set_iter G (Z.to_nat depth) max_nodes [center] [center]) in *.
  split; [by apply wf_restrict|].
  split; [by apply induced_subgraph_restrict|]. split.
  - pose proof (length_nodes_subgraph_le G
                  (py_slice_to max_nodes (set_iter R)) Hwf) as Hle.
    pose proof (length_py_slice_to max_nodes (set_iter R) Hmax). lia.
  - intros v Hv. apply elem_of_nodes_subgraph in Hv as [_ Hv].
    apply py_slice_to_subseteq in Hv.
    apply (elem_of_set_iter set_iter Hiter R v Hnd) in Hv.
    apply (within_mono G center j); [done|]. by apply Hmem.
Qed.

Lemma ego_respects_cap_witness :
  ∃ H, _ego_subgraph reverse path4 "B" 2 3 = Ok H
       ∧ wf H ∧ induced_subgraph H path4
       ∧ (Z.of_nat (length (nodes H)) ≤ 3)%Z
       ∧ ∀ v, v ∈ nodes H → within path4 "B" (Z.to_nat 2) v.
Proof.
  apply (ego_respects_cap reverse path4 "B" 2 3).
  - intros s _. apply reverse_Permutation.
  - exact wf_path4.
  - by apply (bool_decide_unpack _).
  - lia.
Defined.

Section EgoEdgeCases.
Variable set_iter : pyset → list string.
Hypothesis set_iter_ok : set_order_ok set_iter.

Lemma set_iter_nil : set_iter [] = [].
Proof. apply Permutation_nil_r. apply set_iter_ok. constructor. Qed.

Lemma set_iter_singleton x : set_iter [x] = [x].
Proof. apply Permutation_singleton_r. apply set_iter_ok. apply NoDup_singleton. Qed.

Lemma set_update_nil s : set_update s [] = s.
Proof. done. Qed.

(** With an empty frontier nothing more is visited. *)
Lemma ego_loop_empty_frontier G hops max_nodes visited :
  ego_loop set_iter G hops max_nodes visited [] = visited.
Proof.
  induction hops as [|hops IH]; simpl; [done|].
  unfold next_frontier. rewrite set_iter_nil. simpl. rewrite set_iter_nil.
  rewrite set_update_nil. by destruct (decide _).
Qed.

Lemma ego_loop_alone G center (depth max_nodes : Z) :
  (depth ≤ 0)%Z ∨ neighbors G center = [] →
  ego_loop set_iter G (Z.to_nat depth) max_nodes [center] [center] = [center].
Proof.
  intros [Hd|Hiso].
  - replace (Z.to_nat depth) with 0 by lia. done.
  - destruct (Z.to_nat depth) as [|hops]; [done|]. simpl.
    unfold next_frontier. rewrite set_iter_singleton. simpl. rewrite Hiso.
    rewrite !set_update_nil, set_iter_nil, set_update_nil.
    destruct (decide _); [done|]. apply ego_loop_empty_frontier.
Qed.
End EgoEdgeCases.

(** X9. With [depth <= 0], or with a center that has no neighbours, the ego
    graph (for [max_nodes >= 1]) is the center alone: its only node is the
    center and its only edges are the self-loops of the center. *)
Theorem ego_of_lonely_center (set_iter : pyset → list string)
    (G : Graph) (center : string) (depth max_nodes : Z) :
  set_order_ok set_iter → wf G → center ∈ nodes G → (1 ≤ max_nodes)%Z →
  (depth ≤ 0)%Z ∨ neighbors G center = [] →
  ∃ H, _ego_subgraph set_iter G center depth max_nodes = Ok H
       ∧ nodes H = [center]
       ∧ ∀ u v d, has_edge H u v d ↔
                  has_edge G center center d ∧ u = center ∧ v = center.
Proof.
  intros Hiter Hwf Hc Hmax Halone. unfold _ego_subgraph.
  rewrite decide_True by done. eexists. split; [done|].
  rewrite (ego_loop_alone set_iter Hiter G center depth max_nodes Halone).
  rewrite (set_iter_singleton set_iter Hiter).
  assert (Hslice : py_slice_to max_nodes [center] = [center]).
  { unfold py_slice_to, slice_index. rewrite decide_False by lia.
    assert (Z.to_nat (max_nodes `min` Z.of_nat (length [center])) = 1) as ->
      by (simpl; lia).
    done. }
  rewrite Hslice. split.
  - apply Permutation_singleton_r. rewrite nodes_subgraph.
    apply filter_elem_of_Permutation; [by destruct Hwf|apply NoDup_singleton|].
    intros x Hx. by apply list_elem_of_singleton in Hx as ->.
  - intros u v d. rewrite has_edge_subgraph, !list_elem_of_singleton. split.
    + intros (Huv & -> & ->). done.
    + intros (Hcc & -> & ->). done.
Qed.

Lemma ego_of_lonely_center_witness :
  ∃ H, _ego_subgraph reverse path4 "B" 0 5 = Ok H
       ∧ nodes H = ["B"]
       ∧ ∀ u v d, has_edge H u v d ↔
                  has_edge path4 "B" "B" d ∧ u = "B" ∧ v = "B".
Proof.
  apply (ego_of_lonely_center reverse path4 "B" 0 5).
  - intros s _. apply reverse_Permutation.
  - exact wf_path4.
  - by apply (bool_decide_unpack _).
  - lia.
  - left. lia.
Defined.

(** X10. The failures of the [/neighbors] handler: it passes on the
    provider's failure; with a graph at hand it fails exactly when the
    center is not a node, with status 404 and the center quoted in the
    detail; the status 503 is answered exactly by a [KGFromLlamaIndex]
    provider whose index is not loaded. *)
Theorem neighbors_route_failures (set_iter : pyset → list string)
    (provider : KGProvider) (center : string) (depth max_nodes : Z) :
  match get_graph provider with
  | Raise e =>
      kg_endpoints.get_neighbors set_iter provider center depth max_nodes = Raise e
  | Ok G =>
      (center ∉ nodes G →
       kg_endpoints.get_neighbors set_iter provider center depth max_nodes
       = Raise (HTTPException 404 ("Center node '" +:+ center +:+ "' not found")))
      ∧ (center ∈ nodes G →
         ∃ nl, kg_endpoints.get_neighbors set_iter provider center depth max_nodes
               = Ok nl)
  end
  ∧ ((∃ detail,
        kg_endpoints.get_neighbors set_iter provider center depth max_nodes
        = Raise (HTTPException 503 detail))
     ↔ provider = KGFromLlamaIndex None).
Proof.
  unfold kg_endpoints.get_neighbors, _ego_subgraph.
  destruct provider as [G|[G|]]; simpl.
  - destruct (decide (center ∈ nodes G)) as [Hc|Hc].
    + split; [split; [done|by eexists]|].
      split; [intros [detail Hd]; discriminate|discriminate].
    + split; [split; [done|done]|].
      split; [intros [detail Hd]; discriminate|discriminate].
  - destruct (decide (center ∈ nodes G)) as [Hc|Hc].
    + split; [split; [done|by eexists]|].
      split; [intros [detail Hd]; discriminate|discriminate].
    + split; [split; [done|done]|].
      split; [intros [detail Hd]; discriminate|discriminate].
  - split; [done|]. split; [done|]. intros _. by eexists.
Qed.

(** ** Further properties of the triplets *)

(** X11. A triplet row carries every attribute of its edge other than
    [subject], [relation], [object] and [label] as stored, and never has a
    [label] key: the edge's label only ever shows up as the relation. *)
Theorem triplet_row_passes_attributes (G : Graph) :
  ∀ i u v d, edges G !! i = Some (u, v, d) →
    ∃ row, _derive_triplets_from_edges G !! i = Some row
           ∧ row !! "label" = None
           ∧ ∀ k, k ≠ "subject" → k ≠ "relation" → k ≠ "object" → k ≠ "label" →
                  row !! k = d !! k.
Proof.
  intros i u v d Hi. exists (triplet_row (u, v, d)). split.
  { unfold _derive_triplets_from_edges. by rewrite list_lookup_fmap, Hi. }
  split.
  - unfold triplet_row. simpl. rewrite lookup_union_r.
    + by rewrite !lookup_insert_ne by done.
    + apply map_lookup_filter_None_2. right. intros x _ [_ Hl]. done.
  - intros k Hs Hr Ho Hl. rewrite triplet_row_extra by done.
    destruct (d !! k); [done|]. by rewrite !lookup_insert_ne by done.
Qed.

Lemma triplet_row_passes_attributes_witness :
  ∃ row, _derive_triplets_from_edges path4 !! 0 = Some row
         ∧ row !! "label" = None
         ∧ ∀ k, k ≠ "subject" → k ≠ "relation" → k ≠ "object" → k ≠ "label" →
                row !! k = cites !! k.
Proof. apply (triplet_row_passes_attributes path4 0 "A" "B" cites). reflexivity. Defined.

Lemma items_get_triplets G (skip limit : Z) :
  (0 ≤ skip)%Z → (0 ≤ limit)%Z →
  items (get_triplets G skip limit)
  = take (Z.to_nat limit) (drop (Z.to_nat skip) (_derive_triplets_from_edges G)).
Proof. intros Hs Hl. simpl. by apply py_slice_nonneg. Qed.

(** X12. Walking the pages: with a non-negative [limit], the pages requested
    at [skip = 0, limit, 2 * limit, ...] put end to end are the first
    [n * limit] triplets, so once [n * limit] reaches the reported count
    every triplet has come out exactly once and in order. *)
Theorem triplets_pages_walk (G : Graph) (limit : Z) (n : nat) :
  (0 ≤ limit)%Z →
  concat ((λ k, items (get_triplets G (Z.of_nat k * limit) limit)) <$> seq 0 n)
    = take (n * Z.to_nat limit) (_derive_triplets_from_edges G)
  ∧ ((count (get_triplets G 0 limit) ≤ Z.of_nat n * limit)%Z →
     concat ((λ k, items (get_triplets G (Z.of_nat k * limit) limit)) <$> seq 0 n)
       = _derive_triplets_from_edges G).
Proof.
  intros Hlimit.
  assert (Hwalk : concat ((λ k, items (get_triplets G (Z.of_nat k * limit) limit))
                            <$> seq 0 n)
                  = take (n * Z.to_nat limit) (_derive_triplets_from_edges G)).
  { induction n as [|n IH]; [by rewrite take_0|].
    rewrite seq_S, fmap_app, concat_app, IH, list_fmap_singleton.
    assert (Hone : ∀ a : list attrs, concat [a] = a)
      by (intros a; simpl; apply app_nil_r).
    rewrite Hone, items_get_triplets by lia.
    replace (Z.to_nat (Z.of_nat (0 + n) * limit)) with (n * Z.to_nat limit)
      by lia.
    rewrite take_take_drop. f_equal. lia. }
  split; [exact Hwalk|].
  intros Hcount. rewrite Hwalk. apply take_ge. simpl in Hcount. lia.
Qed.

Lemma triplets_pages_walk_witness :
  concat ((λ k, items (get_triplets path4 (Z.of_nat k * 2) 2)) <$> seq 0 2)
  = _derive_triplets_from_edges path4.
Proof.
  destruct (triplets_pages_walk path4 2 2 ltac:(lia)) as [_ Hall].
  apply Hall. vm_compute. discriminate.
Defined.

(** X13. The size of a page, for non-negative [skip] and [limit]: the page
    holds [limit] rows, or what is left after [skip] when that is less, so a
    [skip] at or past the end gives an empty page, while the reported count
    stays the total. *)
Theorem triplets_page_size (G : Graph) (skip limit : Z) :
  (0 ≤ skip)%Z → (0 ≤ limit)%Z →
  length (items (get_triplets G skip limit))
    = Z.to_nat limit `min` (length (edges G) - Z.to_nat skip)
  ∧ count (get_triplets G skip limit) = Z.of_nat (length (edges G))
  ∧ ((Z.of_nat (length (edges G)) ≤ skip)%Z →
     items (get_triplets G skip limit) = []).
Proof.
  intros Hs Hl.
  assert (Hlen : length (_derive_triplets_from_edges G) = length (edges G))
    by (unfold _derive_triplets_from_edges; apply length_fmap).
  split; [|split].
  - rewrite items_get_triplets by done. by rewrite length_take, length_drop, Hlen.
  - simpl. by rewrite Hlen.
  - intros Hpast. rewrite items_get_triplets by done.
    rewrite drop_ge by lia. apply take_nil.
Qed.

Lemma triplets_page_size_witness :
  length (items (get_triplets path4 2 5)) = 1
  ∧ items (get_triplets path4 3 5) = [].
Proof.
  destruct (triplets_page_size path4 2 5 ltac:(lia) ltac:(lia)) as (Hlen & _ & _).
  destruct (triplets_page_size path4 3 5 ltac:(lia) ltac:(lia)) as (_ & _ & Hpast).
  split.
  - rewrite Hlen. reflexivity.
  - apply Hpast. vm_compute. discriminate.
Defined.

(** ** The per-file registry and its routes *)

Lemma str_le_iff a b : str_le a b ↔ a = b ∨ OrderedTypeEx.String_as_OT.lt a b.
Proof.
  unfold str_le, String.leb.
  rewrite <- OrderedTypeEx.String_as_OT.cmp_lt, <- OrderedTypeEx.String_as_OT.cmp_eq.
  unfold OrderedTypeEx.String_as_OT.cmp.
  destruct (String.compare a b); split; try done; try tauto.
  intros [|]; discriminate.
Qed.

#[global] Instance str_le_total : Total str_le.
Proof. intros a b. unfold str_le. apply String.leb_total. Qed.

#[global] Instance str_le_trans : Transitive str_le.
Proof.
  intros a b c. rewrite !str_le_iff. intros [->|Hab] [->|Hbc]; try tauto.
  right. by eapply OrderedTypeEx.String_as_OT.lt_trans.
Qed.

Lemma sorted_str_Permutation l : sorted_str l ≡ₚ l.
Proof. apply merge_sort_Permutation. Qed.

Lemma elem_of_get_files path_stem get_index_by_file list_files en :
  en ∈ kg_file_endpoints.get_files path_stem get_index_by_file list_files ↔
  ∃ fp, fp ∈ list_files
        ∧ en = mkKGFileEntry fp.1 (path_stem fp.1) fp.2
                 (number_of_nodes <$> get_index_by_file fp.1)
                 (number_of_edges <$> get_index_by_file fp.1).
Proof.
  unfold kg_file_endpoints.get_files. rewrite list_elem_of_fmap.
  split; intros (fp & H1 & H2); by exists fp.
Qed.

Lemma files_of_get_files path_stem (B : gmap string Graph) (P : gmap string string) :
  file <$> kg_file_endpoints.get_files path_stem (_get_index_by_file B)
             (_list_files B P)
  = sorted_str (elements (dom B)).
Proof.
  unfold kg_file_endpoints.get_files, _list_files.
  rewrite <- !list_fmap_compose. apply list_fmap_id.
Qed.

(** X14. The file listing, as [api.py] wires it: [/list] shows exactly the
    files that have a loaded index, each once, in ascending order of name;
    every entry carries the node and edge counts of the file's graph (never
    a missing count) and the persist directory recorded for the file. *)
Theorem file_listing_sorted_complete (path_stem : string → string)
    (B : gmap string Graph) (P : gmap string string) :
  StronglySorted str_le
    (file <$> kg_file_endpoints.get_files path_stem (_get_index_by_file B)
                (_list_files B P))
  ∧ NoDup (file <$> kg_file_endpoints.get_files path_stem (_get_index_by_file B)
                      (_list_files B P))
  ∧ (∀ f, f ∈ file <$> kg_file_endpoints.get_files path_stem
                         (_get_index_by_file B) (_list_files B P)
          ↔ is_Some (B !! f))
  ∧ (∀ en, en ∈ kg_file_endpoints.get_files path_stem (_get_index_by_file B)
                  (_list_files B P) →
       ∃ G, B !! file en = Some G
            ∧ file_nodes en = Some (number_of_nodes G)
            ∧ file_edges en = Some (number_of_edges G)
            ∧ persist_dir en = P !! file en
            ∧ stem en = path_stem (file en)).
Proof.
  rewrite files_of_get_files.
  assert (Hmem : ∀ f, f ∈ sorted_str (elements (dom B)) ↔ is_Some (B !! f)).
  { intros f. rewrite sorted_str_Permutation, elem_of_elements. apply elem_of_dom. }
  split; [apply StronglySorted_merge_sort; apply _|]. split.
  { rewrite sorted_str_Permutation. apply NoDup_elements. }
  split; [exact Hmem|].
  intros en Hen. apply elem_of_get_files in Hen as ([fn pd] & Hfp & ->). simpl.
  unfold _list_files in Hfp. apply list_elem_of_fmap in Hfp as (fn' & Heq & Hfn).
  injection Heq as -> ->.
  apply Hmem in Hfn as [G HG]. exists G. unfold _get_index_by_file.
  rewrite HG. done.
Qed.

Lemma filtered_graph_unfiltered G max_nodes :
  (Z.of_nat (number_of_nodes G) ≤ max_nodes)%Z →
  _filtered_graph G None 0 max_nodes = Some G.
Proof.
  intros Hmax. unfold _filtered_graph, degree_step.
  rewrite decide_False by lia. simpl. unfold downsample_step.
  rewrite decide_False by lia. done.
Qed.

(** X15. The per-file routes agree with the listing.  For a file that
    [/list] shows (graphs being well-formed), [/triplets] answers with the
    edge count shown in the listing, and [/node-link] without a filter, with
    [max_nodes] at least the node count shown, answers with that many node
    records and that many edge records.  For a file without a loaded index
    all three routes fail with the 404 that names the file. *)
Theorem file_routes_agree_with_listing (path_stem : string → string)
    (set_iter : pyset → list string)
    (B : gmap string Graph) (P : gmap string string) :
  map_Forall (λ _ G, wf G) B →
  (∀ en, en ∈ kg_file_endpoints.get_files path_stem (_get_index_by_file B)
                (_list_files B P) →
     ∃ n m,
       file_nodes en = Some n ∧ file_edges en = Some m
       ∧ (∀ skip limit, ∃ page,
            kg_file_endpoints.triplets (_get_index_by_file B) (file en) skip limit
            = Ok page
            ∧ count page = Z.of_nat m)
       ∧ (∀ max_nodes, (Z.of_nat n ≤ max_nodes)%Z →
            ∃ nl,
              kg_file_endpoints.node_link (_get_index_by_file B) (file en)
                None 0 max_nodes = Some (Ok nl)
              ∧ length (nl_nodes nl) = n ∧ length (nl_edges nl) = m))
  ∧ (∀ f, B !! f = None →
       (∀ skip limit,
          kg_file_endpoints.triplets (_get_index_by_file B) f skip limit
          = Raise (kg_file_endpoints.no_index f))
       ∧ (∀ q min_degree max_nodes,
            kg_file_endpoints.node_link (_get_index_by_file B) f q min_degree max_nodes
            = Some (Raise (kg_file_endpoints.no_index f)))
       ∧ (∀ center depth max_nodes,
            kg_file_endpoints.neighbors (_get_index_by_file B) set_iter f
              center depth max_nodes
            = Raise (kg_file_endpoints.no_index f))).
Proof.
  intros Hwf. split.
  - intros en Hen. apply elem_of_get_files in Hen as ([fn pd] & Hfp & ->). simpl.
    unfold _list_files in Hfp. apply list_elem_of_fmap in Hfp as (fn' & Heq & Hfn).
    injection Heq as -> ->.
    rewrite sorted_str_Permutation, elem_of_elements in Hfn.
    apply elem_of_dom in Hfn as [G HG].
    specialize (Hwf fn' G HG). simpl in Hwf.
    exists (number_of_nodes G), (number_of_edges G).
    unfold kg_file_endpoints.triplets, kg_file_endpoints.node_link,
      _get_index_by_file. rewrite HG. simpl.
    split; [done|]. split; [done|]. split.
    + intros skip limit. eexists. split; [done|]. simpl.
      unfold _derive_triplets_from_edges.
      by rewrite length_fmap, number_of_edges_edges.
    + intros max_nodes Hmax. rewrite filtered_graph_unfiltered by done.
      simpl. eexists. split; [done|].
      destruct (nl_lengths G) as [Hn He]. rewrite Hn, He.
      unfold nodes, number_of_nodes. rewrite length_fmap. split; [done|].
      by rewrite number_of_edges_edges.
  - intros f Hf.
    unfold kg_file_endpoints.triplets, kg_file_endpoints.node_link,
      kg_file_endpoints.neighbors, _get_index_by_file. rewrite Hf. done.
Qed.

Lemma file_routes_agree_with_listing_witness :
  ∃ page,
    kg_file_endpoints.triplets (_get_index_by_file one_file_registry)
      "paper_12.md" 0 200 = Ok page
    ∧ count page = 3%Z.
Proof.
  destruct (file_routes_agree_with_listing id reverse one_file_registry ∅)
    as [Hlisted _].
  - intros f G Hf. unfold one_file_registry in Hf.
    apply lookup_singleton_Some in Hf as [_ <-]. exact wf_path4.
  - destruct (Hlisted (mkKGFileEntry "paper_12.md" "paper_12.md" None (Some 4) (Some 3)))
      as (n & m & Hn & Hm & Htrip & _).
    + vm_compute. by left.
    + simpl in Hm. injection Hm as <-. apply (Htrip 0%Z 200%Z).
Defined.

Example two_files_are_listed_in_order :
  file <$> kg_file_endpoints.get_files id
             (_get_index_by_file (<["b.md" := path4]> (<["a.md" := people]> ∅)))
             (_list_files (<["b.md" := path4]> (<["a.md" := people]> ∅)) ∅)
  = ["a.md"; "b.md"].
Proof. vm_compute. reflexivity. Qed.

(** ** How the filter reacts to its parameters *)

Lemma greedy_keep_cap_mono (m m' : Z) keep comps v :
  (m ≤ m')%Z → v ∈ greedy_keep m keep comps → v ∈ greedy_keep m' keep comps.
Proof.
  intros Hm. revert keep. induction comps as [|c comps IH]; intros keep; simpl.
  - done.
  - destruct (decide (m < Z.of_nat (length keep) + Z.of_nat (length c))%Z)
      as [Hover|Hfit].
    + intros Hv. destruct (decide _); [done|].
      apply greedy_keep_mono. apply elem_of_set_update. by left.
    + rewrite decide_False by lia. apply IH.
Qed.

(** X16. Raising [max_nodes] never takes anything away: on a well-formed
    graph, every node and every edge of the result for [max_nodes] is in the
    result for any larger [max_nodes] (same query, same [min_degree]). *)
Theorem filtered_grows_with_max_nodes (G : Graph) (q : option string)
    (min_degree m m' : Z) (R R' : Graph) :
  wf G → (m ≤ m')%Z →
  _filtered_graph G q min_degree m = Some R →
  _filtered_graph G q min_degree m' = Some R' →
  (∀ v, v ∈ nodes R → v ∈ nodes R')
  ∧ (∀ u v d, has_edge R u v d → has_edge R' u v d).
Proof.
  intros Hwf Hm HR HR'.
  pose proof (wf_prefiltered G q min_degree Hwf) as HwfH.
  unfold _filtered_graph in HR, HR'.
  fold (prefiltered G q min_degree) in HR, HR'.
  set (H := prefiltered G q min_degree) in *.
  destruct (downsample_step_cases H m' HwfH)
    as [[Heq' Hsmall']|(comps' & Hcc' & _ & _ & Heq' & Hbig')];
    rewrite Heq' in HR'; injection HR' as <-.
  - destruct (downsample_step_cases H m HwfH)
      as [[Heq _]|(comps & _ & _ & _ & Heq & _)];
      rewrite Heq in HR; injection HR as <-; [done|].
    split.
    + intros v Hv. by apply elem_of_nodes_subgraph in Hv as [Hv _].
    + intros u v d Huv. by apply has_edge_subgraph in Huv as [Huv _].
  - destruct (downsample_step_cases H m HwfH)
      as [[_ Hsmall]|(comps & Hcc & _ & _ & Heq & _)].
    { destruct Hsmall. split; lia. }
    rewrite Heq in HR. injection HR as <-.
    rewrite Hcc in Hcc'. injection Hcc' as <-.
    split.
    + intros v. rewrite !elem_of_nodes_subgraph. intros [Hv Hk].
      split; [done|]. by apply (greedy_keep_cap_mono m m').
    + intros u v d. rewrite !has_edge_subgraph. intros (Huv & Hu & Hv).
      split; [done|]. split; by apply (greedy_keep_cap_mono m m').
Qed.

Lemma filtered_grows_with_max_nodes_witness :
  (∀ v, v ∈ nodes (subgraph five_and_three ["a1"; "a2"; "a3"; "a4"; "a5"]) →
        v ∈ nodes five_and_three)
  ∧ (∀ u v d,
       has_edge (subgraph five_and_three ["a1"; "a2"; "a3"; "a4"; "a5"]) u v d →
       has_edge five_and_three u v d).
Proof.
  apply (filtered_grows_with_max_nodes five_and_three None 0 6 8).
  - exact wf_five_and_three.
  - lia.
  - vm_compute. reflexivity.
  - vm_compute. reflexivity.
Defined.

Lemma restrict_restrict (P Q : string → Prop) `{!∀ x, Decision (P x)}
    `{!∀ x, Decision (Q x)} G :
  restrict Q (restrict P G) = restrict (λ n, P n ∧ Q n) G.
Proof.
  induction G as [|e G IH]; [done|].
  rewrite (restrict_cons P), (restrict_cons (λ n, P n ∧ Q n)).
  destruct (decide (P (nid e))) as [Hp|Hp].
  - rewrite (restrict_cons Q). simpl.
    destruct (decide (Q (nid e))) as [Hq|Hq].
    + rewrite decide_True by done. rewrite IH. f_equal. f_equal.
      rewrite list_filter_filter. apply list_filter_iff. intros [v d]. simpl. tauto.
    + rewrite decide_False by tauto. done.
  - rewrite decide_False by tauto. done.
Qed.

(** On a well-formed graph a restriction only depends on what the predicate
    says about the nodes of the graph. *)
Lemma restrict_ext_nodes (P Q : string → Prop) `{!∀ x, Decision (P x)}
    `{!∀ x, Decision (Q x)} G :
  wf G → (∀ n, n ∈ nodes G → (P n ↔ Q n)) → restrict P G = restrict Q G.
Proof.
  intros Hwf HPQ. unfold restrict.
  rewrite (filter_ext_in (λ e, P (nid e)) (λ e, Q (nid e)) G).
  2: { intros e He. apply HPQ. apply elem_of_nodes. by exists e. }
  apply list_fmap_ext. intros i e Hi. f_equal.
  apply list_elem_of_lookup_2, list_elem_of_filter in Hi as [_ He].
  apply filter_ext_in. intros [v d] Hvd. simpl. apply HPQ.
  apply (wf_neighbors_nodes G (nid e)); [done|].
  unfold neighbors. rewrite (adj_entry G e) by (by destruct Hwf || done).
  apply list_elem_of_fmap. by exists (v, d).
Qed.

Lemma string_app_assoc (a b c : string) : (a +:+ b) +:+ c = a +:+ (b +:+ c).
Proof.
  induction a as [|x a IH]; [done|].
  change (String x ((a +:+ b) +:+ c) = String x (a +:+ (b +:+ c))).
  by rewrite IH.
Qed.

Lemma is_substring_lower p s : is_substring p s → is_substring (lower p) (lower s).
Proof. intros (a & b & ->). exists (lower a), (lower b). by rewrite !lower_app. Qed.

Lemma is_substring_trans p q s :
  is_substring p q → is_substring q s → is_substring p s.
Proof.
  intros (a & b & ->) (a' & b' & ->).
  exists (a' +:+ a), (b +:+ b'). by rewrite !string_app_assoc.
Qed.

Lemma matches_narrow q q' e :
  is_substring (lower q) (lower q') → matches q' e → matches q e.
Proof.
  intros Hq [Hm|Hm]; [left|right]; by eapply is_substring_trans.
Qed.

(** In a graph with distinct node ids, the removal list of the substring
    step holds a node exactly when its slot fails the test. *)
Lemma no_match_removal G ql e :
  NoDup (nodes G) → e ∈ G →
  nid e ∈ nid <$> filter (λ e', no_match ql e' = true) G ↔ no_match ql e = true.
Proof.
  intros Hnd He. split.
  - intros Hin. apply list_elem_of_fmap in Hin as (e' & Heq & He').
    apply list_elem_of_filter in He' as [Hnm He'].
    by rewrite (wf_entry_inj G e e' Hnd He He' Heq).
  - intros Hnm. apply list_elem_of_fmap_2. by apply list_elem_of_filter.
Qed.

Lemma substring_step_nonempty G q :
  q ≠ EmptyString →
  substring_step G (Some q)
  = remove_nodes_from G (nid <$> filter (λ e, no_match (lower q) e = true) G).
Proof.
  intros Hq. unfold substring_step.
  assert (Ht : truthy (VStr q) = true).
  { simpl. apply negb_true_iff. by apply String.eqb_neq. }
  by rewrite Ht.
Qed.

(** Searching inside the result of a broader search is searching afresh. *)
Lemma substring_step_compose G q q' :
  wf G → q ≠ EmptyString → is_substring (lower q) (lower q') →
  substring_step (substring_step G (Some q)) (Some q') = substring_step G (Some q').
Proof.
  intros Hwf Hq Hsub.
  assert (Hq' : q' ≠ EmptyString).
  { intros ->. destruct Hsub as (a & b & Hab). destruct a; [|done].
    destruct q; [done|]. done. }
  pose proof Hwf as [Hnd _].
  rewrite (substring_step_nonempty G q Hq).
  set (rm1 := nid <$> filter (λ e, no_match (lower q) e = true) G).
  rewrite (substring_step_nonempty (remove_nodes_from G rm1) q' Hq'),
    (substring_step_nonempty G q' Hq').
  set (H := remove_nodes_from G rm1).
  set (rm2 := nid <$> filter (λ e, no_match (lower q') e = true) H).
  set (rm' := nid <$> filter (λ e, no_match (lower q') e = true) G).
  change (restrict (λ n, n ∉ rm2) (restrict (λ n, n ∉ rm1) G)
          = restrict (λ n, n ∉ rm') G).
  rewrite restrict_restrict.
  apply restrict_ext_nodes; [done|]. intros n Hn.
  apply elem_of_nodes in Hn as (e & He & <-).
  unfold rm1, rm'. rewrite !(no_match_removal G _ e Hnd He).
  assert (Hrm2 : nid e ∈ rm2
                 ↔ no_match (lower q) e ≠ true ∧ no_match (lower q') e = true).
  { unfold rm2. split.
    - intros Hin. apply list_elem_of_fmap in Hin as (e2 & Heq & He2).
      apply list_elem_of_filter in He2 as [Hnm He2].
      unfold H, remove_nodes_from, restrict in He2.
      apply list_elem_of_fmap in He2 as (e0 & -> & He0).
      apply list_elem_of_filter in He0 as [Hkeep He0]. simpl in Heq.
      rewrite <- (wf_entry_inj G e e0 Hnd He He0 Heq) in *.
      split; [|done]. intros Hnm1. apply Hkeep.
      unfold rm1. by apply (no_match_removal G _ e Hnd He).
    - intros [Hnm1 Hnm2].
      apply (list_elem_of_fmap_2' nid _
               (Entry (nid e) (nattrs e)
                  (filter (λ vd : string * attrs, vd.1 ∉ rm1) (nbrs e))));
        [|done].
      apply list_elem_of_filter. split; [done|].
      unfold H, remove_nodes_from, restrict.
      apply (list_elem_of_fmap_2' _ _ e); [|done].
      apply list_elem_of_filter. split; [|done].
      unfold rm1. by rewrite (no_match_removal G _ e Hnd He). }
  rewrite Hrm2. split.
  - intros [Hm1 Hm2] Hnm'. apply Hm2. split; [done|done].
  - intros Hnm'. split.
    + intros Hnm1. apply Hnm'.
      destruct (no_match (lower q') e) eqn:Hnm2; [done|].
      apply no_match_spec in Hnm2. apply (matches_narrow q q' e Hsub) in Hnm2.
      apply no_match_spec in Hnm2. congruence.
    + intros [_ Hnm2]. done.
Qed.

Lemma filtered_graph_query_only G q max_nodes :
  (Z.of_nat (number_of_nodes G) ≤ max_nodes)%Z →
  _filtered_graph G q 0 max_nodes = Some (substring_step G q).
Proof.
  intros Hmax. unfold _filtered_graph, degree_step.
  rewrite decide_False by lia. unfold downsample_step.
  rewrite decide_False; [done|].
  assert (number_of_nodes (substring_step G q) ≤ number_of_nodes G); [|lia].
  unfold substring_step. destruct q as [qs|]; [|done].
  destruct (truthy (VStr qs)); [|done]. apply length_restrict_le.
Qed.

(** X17. Searching within results, on ASCII text.  With no degree bound and
    [max_nodes] at least the size of the graph, filtering the result of a
    non-empty query [q] by a query [q'] in which [q] occurs up to case gives
    what filtering the original graph by [q'] gives; in particular filtering
    the result once more by the same query gives the same result again. *)
Theorem search_within_results (G : Graph) (q q' : string) (max_nodes : Z) :
  wf G → ascii_graph G → ascii_text q → ascii_text q' →
  q ≠ EmptyString → occurs_caseless q q' →
  (Z.of_nat (number_of_nodes G) ≤ max_nodes)%Z →
  ∃ R, _filtered_graph G (Some q) 0 max_nodes = Some R
       ∧ _filtered_graph R (Some q') 0 max_nodes
         = _filtered_graph G (Some q') 0 max_nodes.
Proof.
  intros Hwf _ _ _ Hq Hsub Hmax. apply occurs_caseless_lower in Hsub.
  exists (substring_step G (Some q)).
  split; [by apply filtered_graph_query_only|].
  rewrite !filtered_graph_query_only; [|done|].
  - f_equal. by apply substring_step_compose.
  - assert (number_of_nodes (substring_step G (Some q)) ≤ number_of_nodes G);
      [|lia].
    unfold substring_step. destruct (truthy (VStr q)); [|done].
    apply length_restrict_le.
Qed.

Lemma search_within_results_witness :
  ∃ R, _filtered_graph people (Some "a") 0 10 = Some R
       ∧ _filtered_graph R (Some "ALI") 0 10
         = _filtered_graph people (Some "ALI") 0 10.
Proof.
  apply (search_within_results people "a" "ALI" 10).
  - exact wf_people.
  - reflexivity.
  - reflexivity.
  - reflexivity.
  - discriminate.
  - exists EmptyString, "A", "LI". split; [reflexivity|].
    constructor; [|constructor]. right. right.
    split; [split; apply Nat.leb_le; reflexivity|reflexivity].
  - vm_compute. discriminate.
Defined.

Example extract_md_title_examples :
  _extract_md_title "intro
## Part
   # Real Title  
# Second" = "Real Title"
  ∧ _extract_md_title "#NoSpace
# " = EmptyString
  ∧ splitlines "a

b
" = ["a"; EmptyString; "b"].
Proof. repeat split; vm_compute; reflexivity. Qed.

(** ** The title of a Markdown summary *)

Lemma rstrip_fixed_cons c x :
  rstrip (String c x) = String c x →
  (x = EmptyString ∧ py_isspace c = false) ∨ (x ≠ EmptyString ∧ rstrip x = x).
Proof.
  simpl. destruct (rstrip x) as [|c' r] eqn:Hr.
  - destruct (py_isspace c) eqn:Hc; [discriminate|].
    intros Heq. injection Heq as <-. by left.
  - intros Heq. injection Heq as <-. right. by split.
Qed.

Lemma rstrip_idem s : rstrip (rstrip s) = rstrip s.
Proof.
  induction s as [|c s IH]; [done|]. simpl.
  destruct (rstrip s) as [|c' r] eqn:Hr.
  - destruct (py_isspace c) eqn:Hc; [done|]. simpl. by rewrite Hc.
  - change (rstrip (String c (String c' r))) with
      (match rstrip (String c' r) with
       | EmptyString => if py_isspace c then EmptyString else String c EmptyString
       | String c'' r' => String c (String c'' r')
       end).
    by rewrite IH.
Qed.

Lemma lstrip_idem s : lstrip (lstrip s) = lstrip s.
Proof.
  induction s as [|c s IH]; [done|]. simpl.
  destruct (py_isspace c) eqn:Hc; [done|]. simpl. by rewrite Hc.
Qed.

Lemma rstrip_lstrip x : rstrip x = x → rstrip (lstrip x) = lstrip x.
Proof.
  induction x as [|c x IH]; [done|]. intros Hfix.
  change (lstrip (String c x)) with (if py_isspace c then lstrip x else String c x).
  destruct (py_isspace c) eqn:Hc; [|done].
  destruct (rstrip_fixed_cons c x Hfix) as [[_ Hc']|[_ Hx]]; [congruence|].
  by apply IH.
Qed.

Lemma lstrip_nonempty x :
  rstrip x = x → x ≠ EmptyString → lstrip x ≠ EmptyString.
Proof.
  induction x as [|c x IH]; [done|]. intros Hfix _.
  change (lstrip (String c x)) with (if py_isspace c then lstrip x else String c x).
  destruct (py_isspace c) eqn:Hc; [|done].
  destruct (rstrip_fixed_cons c x Hfix) as [[_ Hc']|[Hne Hx]]; [congruence|].
  by apply IH.
Qed.

Lemma rstrip_strip s : rstrip (strip s) = strip s.
Proof. unfold strip. apply rstrip_lstrip, rstrip_idem. Qed.

Lemma strip_idem s : strip (strip s) = strip s.
Proof.
  unfold strip at 1. rewrite rstrip_strip. unfold strip. apply lstrip_idem.
Qed.

(** A stripped line that starts with ["# "] has text after it. *)
Lemma heading_text_nonempty line :
  rstrip line = line → startswith line "# " = true →
  strip (str_from 2 line) ≠ EmptyString.
Proof.
  intros Hfix Hstart.
  destruct line as [|c1 [|c2 rest]].
  { simpl in Hstart. discriminate. }
  { simpl in Hstart. rewrite andb_false_r in Hstart. discriminate. }
  change (startswith (String c1 (String c2 rest)) "# ")
    with (Ascii.eqb "#" c1 && (Ascii.eqb " " c2 && startswith rest EmptyString))
    in Hstart.
  apply andb_true_iff in Hstart as [_ Hstart].
  apply andb_true_iff in Hstart as [Hc2 _]. apply Ascii.eqb_eq in Hc2 as <-.
  change (str_from 2 (String c1 (String " " rest))) with rest.
  destruct (rstrip_fixed_cons c1 _ Hfix) as [[Hcontra _]|[_ Hfix2]]; [done|].
  destruct (rstrip_fixed_cons " " rest Hfix2) as [[_ Hsp]|[Hne Hfix3]]; [done|].
  unfold strip. rewrite Hfix3. by apply lstrip_nonempty.
Qed.

Lemma first_heading_stripped lines :
  strip (first_heading lines) = first_heading lines.
Proof.
  induction lines as [|l lines IH]; [done|]. simpl.
  destruct (startswith (strip l) "# "); [apply strip_idem|done].
Qed.

Lemma first_heading_empty_iff lines :
  first_heading lines = EmptyString ↔
  ∀ l, l ∈ lines → startswith (strip l) "# " = false.
Proof.
  induction lines as [|l lines IH].
  - split; [|done]. intros _ l Hl. by apply elem_of_nil in Hl.
  - simpl. destruct (startswith (strip l) "# ") eqn:Hstart.
    + split.
      * intros Hempty. exfalso.
        by apply (heading_text_nonempty (strip l) (rstrip_strip l) Hstart).
      * intros Hall. specialize (Hall l ltac:(by left)). congruence.
    + rewrite IH. split.
      * intros Hall l' Hl'. apply elem_of_cons in Hl' as [->|Hl']; auto.
      * intros Hall l' Hl'. apply Hall. by right.
Qed.

(** X18. [_extract_md_title] on a body of ASCII text: the title it returns
    has no white space at either end, and it is empty exactly when no line
    of the body, once stripped, starts with ["# "]; so a heading line never
    yields an empty title, and the empty title always means that there is no
    heading. *)
Theorem extract_md_title_empty_iff_no_heading (body : string) :
  ascii_text body →
  strip (_extract_md_title body) = _extract_md_title body
  ∧ (_extract_md_title body = EmptyString ↔
     ∀ l, l ∈ splitlines body → startswith (strip l) "# " = false).
Proof.
  intros _. unfold _extract_md_title. split.
  - apply first_heading_stripped.
  - apply first_heading_empty_iff.
Qed.

Lemma extract_md_title_empty_iff_no_heading_witness :
  strip (_extract_md_title "Summary
 # Graph databases 
text") = _extract_md_title "Summary
 # Graph databases 
text"
  ∧ (_extract_md_title "Summary
 # Graph databases 
text" = EmptyString ↔
     ∀ l, l ∈ splitlines "Summary
 # Graph databases 
text" → startswith (strip l) "# " = false).
Proof.
  apply (extract_md_title_empty_iff_no_heading "Summary
 # Graph databases 
text").
  reflexivity.
Defined.
